(** * ddc-source-nvim-lsp: the completion source [Source]

    A shallow embedding of [denops/@ddc-sources/nvim-lsp.ts].  The class
    [Source] keeps one piece of state, the per-client item cache
    [#item_cache]; everything else it does goes through the host (denops,
    Neovim's Lua LSP client).  The embedding keeps that split:

    - strings are [string]s, one character standing for one UTF-16 code
      unit, with JavaScript's [slice], [replaceAll] and [split] written out;
    - the cache is a [gmap Z (list Item)] keyed by [Client.id];
    - host calls made by [onCompleteDone] and [getPreviewer] are logged in a
      small writer/error monad [Eff], the host's answers coming from a
      record [Host];
    - [gather] is a function of the cache, the clients, the host's reply to
      each request and the order in which the replies arrive.

    The helpers of [completion_item.ts] ([toDdcItem], [getInsertText],
    [isReplace], [confirm]) and [JSON.parse] are not part of this file of
    the repository: they are section variables. *)

From stdpp Require Import base option list gmap strings.
From Stdlib Require Import ZArith Ascii String Lia.

Local Open Scope string_scope.
Local Open Scope list_scope.
Local Open Scope Z_scope.

(** ** JavaScript strings *)

Module Js.

(** Relative index of [String.prototype.slice]: a negative index counts
    from the end, and the result is clamped to [0, len]. *)
Definition relative_index (len k : Z) : Z :=
  if k <? 0 then Z.max (len + k) 0 else Z.min k len.

(** [str.slice(start, end)]; [end_ = None] is the one-argument form. *)
Definition slice (str : string) (start : Z) (end_ : option Z) : string :=
  let len := Z.of_nat (String.length str) in
  let from := relative_index len start in
  let to := match end_ with
            | None => len
            | Some e => relative_index len e
            end in
  substring (Z.to_nat from) (Z.to_nat (Z.max (to - from) 0)) str.

Definition CR : ascii := "013"%char.
Definition LF : ascii := "010"%char.

(** [str.replaceAll(/\r\n?/g, "\n")] *)
Fixpoint normalize_eol (str : string) : string :=
  match str with
  | EmptyString => EmptyString
  | String c rest =>
      if Ascii.eqb c CR then
        String LF match rest with
                  | String c' rest' =>
                      if Ascii.eqb c' LF then normalize_eol rest'
                      else normalize_eol rest
                  | EmptyString => EmptyString
                  end
      else String c (normalize_eol rest)
  end.

(** [str.split("\n")]: never empty, [""] splits into [[""]]. *)
Fixpoint split_lf (str : string) : list string :=
  match str with
  | EmptyString => [EmptyString]
  | String c rest =>
      if Ascii.eqb c LF then EmptyString :: split_lf rest
      else match split_lf rest with
           | line :: lines => String c line :: lines
           | [] => [String c EmptyString]
           end
  end.

(** [Array.prototype.includes] on an array of strings. *)
Definition includes (arr : list string) (x : string) : bool :=
  existsb (String.eqb x) arr.

End Js.

(** [splitLines] of the source. *)
Definition splitLines (str : string) : list string :=
  Js.split_lf (Js.normalize_eol str).

(** ** Protocol data (the fields this file reads) *)

Inductive OffsetEncoding := Utf8 | Utf16 | Utf32.

(** [CompletionOptions]: [undefined] fields are [None]. *)
Record CompletionOptions := {
  resolveProvider : option bool;
  triggerCharacters : option (list string);
}.

Module Client.
Record t := {
  id : Z;
  provider : CompletionOptions;
  offsetEncoding : OffsetEncoding;
}.
End Client.

Inductive MarkupKind := PlainText | Markdown.

(** [string | LSP.MarkupContent] *)
Inductive Documentation :=
| DocString (text : string)
| DocMarkup (kind : MarkupKind) (value : string).

Record Position := { line : Z; character : Z }.
Record Range := { range_start : Position; range_end : Position }.
Record TextEdit := { range : Range; newText : string }.

(** [LSPAny], the type of [CompletionItem.data]. *)
#[local] Unset Elimination Schemes.
Inductive Json :=
| JNull
| JBool (b : bool)
| JNumber (n : Z)
| JString (s : string)
| JArray (elems : list Json)
| JObject (members : list (string * Json)).
#[local] Set Elimination Schemes.

Definition member (key : string) (v : Json) : option Json :=
  match v with
  | JObject members =>
      snd <$> List.find (fun kv => String.eqb (fst kv) key) members
  | _ => None
  end.

(** [LSP.CompletionItem] *)
Record LspItem := {
  label : string;
  kind : option Z;
  detail : option string;
  documentation : option Documentation;
  insertText : option string;
  insertTextFormat : option Z;
  textEdit : option TextEdit;
  additionalTextEdits : option (list TextEdit);
  data : option Json;
}.

(** [itemDefaults] of a [CompletionList]; only handed on to [toDdcItem]. *)
Record ItemDefaults := {
  defaults_editRange : option Range;
  defaults_insertTextFormat : option Z;
  defaults_commitCharacters : option (list string);
}.

Record CompletionList := {
  isIncomplete : bool;
  itemDefaults : option ItemDefaults;
  items : list LspItem;
}.

(** [type Result = LSP.CompletionList | LSP.CompletionItem[]] *)
Inductive Result :=
| ResultList (l : CompletionList)
| ResultArray (a : list LspItem).

Inductive CompletionTriggerKind :=
| Invoked
| TriggerCharacter
| TriggerForIncompleteCompletions.

Record CompletionContext := {
  triggerKind : CompletionTriggerKind;
  triggerCharacter : option string;
}.

(** What [vim.lsp.util.make_position_params()] answers. *)
Record PositionParams := {
  textDocument : string;
  position : Position;
}.

Record CompletionParams := {
  position_params : PositionParams;
  context : CompletionContext;
}.

(** ** Data of the source *)

Inductive ConfirmBehavior := insert | replace.

Record UserData := {
  lspitem : string;
  clientId : Z;
  offsetEncoding : OffsetEncoding;
  resolvable : bool;
  lineOnRequest : string;
  requestCharacter : Z;
  suggestCharacter : Z;
}.

(** [snippetEngine]: the id of a denops callback, or a function value. *)
Inductive SnippetEngine :=
| EngineCallbackId (id : string)
| EngineFunction.

Record Params := {
  snippetEngine : SnippetEngine;
  enableResolveItem : bool;
  enableAdditionalTextEdit : bool;
  confirmBehavior : ConfirmBehavior;
  snippetIndicator : string;
}.

(** [Item<UserData>] of ddc: the word inserted and the payload.  The other
    fields are display data that [toDdcItem] fills and this file never
    reads. *)
Record Item := {
  word : string;
  user_data : option UserData;
}.

Inductive Previewer :=
| PreviewEmpty
| PreviewMarkdown (contents : list string).

(** [Source.params()] *)
Definition params : Params := {|
  snippetEngine := EngineCallbackId "";
  enableResolveItem := false;
  enableAdditionalTextEdit := false;
  confirmBehavior := insert;
  snippetIndicator := "~";
|}.

(** ** The host *)

Module LineContext.
(** [LineContext.create(denops)]: the cursor's line and its character
    offset in it. *)
Record t := {
  character : Z;
  text : string;
}.
End LineContext.

(** The calls [onCompleteDone] and [getPreviewer] make to the host, in the
    order of the source. *)
Inductive HostCall :=
| EvalCompletedItemWord
    (* denops.eval(`v:completed_item.word`) *)
| LineContextCreate
    (* LineContext.create(denops) *)
| LuaResolve (clientId : Z) (lspItem : LspItem)
    (* require("ddc_nvim_lsp.internal").resolve(_A[1], _A[2]) *)
| CmdSetUndoPoint
    (* denops.cmd(`let &undolevels = &undolevels`) *)
| CompletionItemConfirm (lspItem unresolvedItem : LspItem)
    (userData : UserData) (sourceParams : Params)
    (* CompletionItem.confirm(denops, lspItem, unresolvedItem, ...) *)
| CallSkipNextComplete
    (* denops.call("ddc#skip_next_complete") *)
| FiletypeGet
    (* op.filetype.get(denops) *)
| LuaParseSnippet (insertText : string)
    (* vim.lsp.util.parse_snippet(_A[1]) *).

(** The calls that change the editor: the undo break, the edits applied by
    [CompletionItem.confirm] and the suppression of the next completion.
    The others only read the editor or query the language server. *)
Definition mutates (c : HostCall) : bool :=
  match c with
  | CmdSetUndoPoint | CompletionItemConfirm _ _ _ _ | CallSkipNextComplete =>
      true
  | EvalCompletedItemWord | LineContextCreate | LuaResolve _ _
  | FiletypeGet | LuaParseSnippet _ => false
  end.

(** The host's answers.  A host call is taken to answer: an exception
    thrown by denops itself is outside the model. *)
Record Host := {
  completed_item_word : string;
  line_context : LineContext.t;
  lsp_resolve : Z → LspItem → option LspItem;  (* [None] is [null] *)
  filetype : string;
  parse_snippet : string → string;
}.

(** ** Host calls and exceptions: a writer/error monad *)

Definition Exn := string.

(** A computation logs its host calls and ends with a value or with a
    thrown exception (a rejected promise). *)
Definition Eff (A : Type) : Type := list HostCall * (Exn + A).

Definition calls {A} (m : Eff A) : list HostCall := fst m.
Definition outcome {A} (m : Eff A) : Exn + A := snd m.

#[export] Instance Eff_ret : MRet Eff := λ A a, ([], inr a).

#[export] Instance Eff_bind : MBind Eff := λ A B k m,
  match m with
  | (log, inl e) => (log, inl e)
  | (log, inr a) => let '(log', r) := k a in (log ++ log', r)
  end.

Definition throw {A} (e : Exn) : Eff A := ([], inl e).

(** [await] of a host call that answers [answer]. *)
Definition perform {A} (c : HostCall) (answer : A) : Eff A :=
  ([c], inr answer).

(** ** The source's methods *)

Section Source.

(** [JSON.parse] on a stored payload: [None] when it throws. *)
Variable JSON_parse : string → option LspItem.
(** [CompletionItem.getInsertText] and [CompletionItem.isReplace] of
    [completion_item.ts]. *)
Variable getInsertText : LspItem → string.
Variable isReplace : LspItem → ConfirmBehavior → Z → Z → bool.

Variable host : Host.

Definition parse_lspitem (payload : string) : Eff LspItem :=
  match JSON_parse payload with
  | Some lspItem => mret lspItem
  | None => throw "SyntaxError"
  end.

(** [Source.resolve]: [resolvedItem ?? lspItem]. *)
Definition resolve (clientId : Z) (lspItem : LspItem) : Eff LspItem :=
  resolvedItem ← perform (LuaResolve clientId lspItem)
                         (lsp_resolve host clientId lspItem);
  mret (default lspItem resolvedItem).

(** The condition of the [if] in [onCompleteDone]; an array, even an
    empty one, is truthy. *)
Definition needs_confirm (lspItem : LspItem) (itemWord : string)
    (userData : UserData) (sourceParams : Params) : bool :=
  negb (String.eqb (getInsertText lspItem) itemWord)
  || (enableAdditionalTextEdit sourceParams
      && bool_decide (is_Some (additionalTextEdits lspItem)))
  || isReplace lspItem (confirmBehavior sourceParams)
       (suggestCharacter userData) (requestCharacter userData).

(** [Source.onCompleteDone] *)
Definition onCompleteDone (userData : UserData) (sourceParams : Params)
    : Eff unit :=
  itemWord ← perform EvalCompletedItemWord (completed_item_word host);
  ctx ← perform LineContextCreate (line_context host);
  if negb (String.eqb
             (Js.slice (LineContext.text ctx) (suggestCharacter userData)
                       (Some (LineContext.character ctx)))
             itemWord)
  then mret tt
  else
    unresolvedItem ← parse_lspitem (lspitem userData);
    lspItem ← (if enableResolveItem sourceParams
               then resolve (clientId userData) unresolvedItem
               else mret unresolvedItem);
    if needs_confirm lspItem itemWord userData sourceParams then
      _ ← perform CmdSetUndoPoint tt;
      _ ← perform (CompletionItemConfirm lspItem unresolvedItem
                     userData sourceParams) tt;
      perform CallSkipNextComplete tt
    else mret tt.

(** [Source.converter] *)
Definition converter (doc : Documentation) : list string :=
  match doc with
  | DocString text => splitLines text
  | DocMarkup kind value =>
      let value := match kind with
                   | PlainText =>
                       "<text>" +:+ String Js.LF value
                       +:+ String Js.LF "</text>"
                   | Markdown => value
                   end in
      splitLines value
  end.

(** The test of [if (lspItem.detail)]: set and not the empty string. *)
Definition truthy (s : option string) : bool :=
  match s with
  | Some s => negb (String.eqb s "")
  | None => false
  end.

(** [u.isObjectOf({ tsc: u.isObjectOf({ source: u.isString }) })]: the
    string at [data.tsc.source], when [data] has that shape. *)
Definition tsc_source (data : option Json) : option string :=
  d ← data;
  tsc ← member "tsc" d;
  match tsc with
  | JObject _ =>
      match member "source" tsc with
      | Some (JString source) => Some source
      | _ => None
      end
  | _ => None
  end.

(** The test guarding the documentation section. *)
Definition has_documentation (doc : option Documentation) : bool :=
  match doc with
  | Some (DocString text) => bool_decide (0 < String.length text)%nat
  | Some (DocMarkup _ value) => bool_decide (0 < String.length value)%nat
  | None => false
  end.

(** [if (contents.length > 0) contents.push("---")] *)
Definition push_rule (contents : list string) : list string :=
  if bool_decide (0 < List.length contents)%nat
  then contents ++ ["---"] else contents.

(** The part of [getPreviewer] after the snippet case: [contents] is the
    array the source pushes to. *)
Definition preview_contents (filetype : string)
    (lspItem unresolvedItem : LspItem) : list string :=
  let contents := [] in
  let contents :=
    match detail lspItem with
    | Some d =>
        if truthy (Some d)
        then contents ++ ["```" +:+ filetype] ++ splitLines d ++ ["```"]
        else contents
    | None => contents
    end in
  let contents :=
    match tsc_source (data unresolvedItem) with
    | Some source =>
        push_rule contents ++ ["import from `" +:+ source +:+ "`"]
    | None => contents
    end in
  let contents :=
    match documentation lspItem with
    | Some doc =>
        if has_documentation (Some doc)
        then push_rule contents ++ converter doc
        else contents
    | None => contents
    end in
  contents.

(** [Source.getPreviewer] *)
Definition getPreviewer (item : Item) : Eff Previewer :=
  match user_data item with
  | None => mret PreviewEmpty
  | Some userData =>
      unresolvedItem ← parse_lspitem (lspitem userData);
      lspItem ← resolve (clientId userData) unresolvedItem;
      filetype ← perform FiletypeGet (filetype host);
      if bool_decide (kind lspItem = Some 15) then
        let insertText := getInsertText lspItem in
        body ← perform (LuaParseSnippet insertText)
                       (parse_snippet host insertText);
        mret (PreviewMarkdown
                (["```" +:+ filetype]
                 ++ Js.split_lf (Js.normalize_eol body)
                 ++ ["```"]))
      else
        mret (PreviewMarkdown
                (preview_contents filetype lspItem unresolvedItem))
  end.

End Source.

(** ** Gathering *)

Module CompletionItem.
(** The arguments of [new CompletionItem(...)], in the constructor's
    order. *)
Record t := {
  clientId : Z;
  offsetEncoding : OffsetEncoding;
  resolvable : bool;
  lineOnRequest : string;
  suggestCharacter : Z;
  requestCharacter : Z;
  cursorLine : Z;
  snippetIndicator : string;
}.
End CompletionItem.

(** The fields of [GatherArguments] that [gather] and [request] read. *)
Record GatherArguments := {
  context_input : string;        (* args.context.input *)
  args_isIncomplete : bool;      (* args.isIncomplete *)
  completePos : Z;
  completeStr : string;
  sourceParams : Params;
  sourceOptions_timeout : Z;     (* args.sourceOptions.timeout *)
}.

(** How the wait for one provider's response ends. *)
Inductive Reply :=
| Responded (result : option Result)
    (* the registered callback fired in time; [None] is [null] *)
| DeadlineExceeded
    (* [deadline] threw [DeadlineError] *)
| Thrown (e : Exn)
    (* the host call or the wait threw anything else *).

(** The host's answers during a gather cycle. *)
Record GatherHost := {
  getline : string;                    (* fn.getline(denops, ".") *)
  line_number : Z;                     (* fn.line(denops, ".") *)
  get_clients : list Client.t;
  make_position_params : PositionParams;
  lsp_request : Z → CompletionParams → Z → Reply;
}.

(** The state of one cycle while the promises of [clients.map] settle:
    the cache, the local [isIncomplete], for each client the value its
    promise was fulfilled with ([None] while pending), and the reason
    [Promise.all] was rejected with, if it was. *)
Record Cycle := {
  cycle_cache : gmap Z (list Item);
  cycle_isIncomplete : bool;
  fulfilled : list (option (list Item));
  rejected : option Exn;
}.

(** What a cycle leaves: the returned [DdcGatherItems], the new
    [#item_cache], the messages passed to [printError] and the requests
    sent to the providers.  [item_cache] is the cache at the moment
    [gather] returns; [settled_cache] below is the cache after the
    callbacks that were still pending then. *)
Record Gathered := {
  gathered_items : list Item;
  gathered_isIncomplete : bool;
  item_cache : gmap Z (list Item);
  printed : list Exn;
  requests : list (Z * CompletionParams);
}.

Section Gather.

(** [CompletionItem.prototype.toDdcItem] of [completion_item.ts]. *)
Variable toDdcItem :
  CompletionItem.t → LspItem → option ItemDefaults → option Item.

Variable host : GatherHost.
Variable args : GatherArguments.

(** The [params.context] that [Source.request] computes. *)
Definition request_context (client : Client.t) : CompletionContext :=
  let trigger := Js.slice (context_input args) (-1) None in
  if match triggerCharacters (Client.provider client) with
     | Some chars => Js.includes chars trigger
     | None => false
     end
  then {| triggerKind := TriggerCharacter;
          triggerCharacter := Some trigger |}
  else {| triggerKind := if args_isIncomplete args
                         then TriggerForIncompleteCompletions
                         else Invoked;
          triggerCharacter := None |}.

Definition request_params (client : Client.t) : CompletionParams :=
  {| position_params := make_position_params host;
     context := request_context client |}.

(** [Source.request]: the result, [None] for [undefined] or [null], or
    the exception it rethrows.  A [DeadlineError] is swallowed by the
    [catch] and the method returns [undefined]. *)
Definition request (client : Client.t) : Exn + option Result :=
  match lsp_request host (Client.id client) (request_params client)
          (sourceOptions_timeout args) with
  | Responded result => inr result
  | DeadlineExceeded => inr None
  | Thrown e => inl e
  end.

Definition completionItem (client : Client.t) : CompletionItem.t :=
  {| CompletionItem.clientId := Client.id client;
     CompletionItem.offsetEncoding := Client.offsetEncoding client;
     CompletionItem.resolvable :=
       bool_decide (resolveProvider (Client.provider client) = Some true);
     CompletionItem.lineOnRequest := getline host;
     CompletionItem.suggestCharacter := completePos args;
     CompletionItem.requestCharacter :=
       completePos args + Z.of_nat (String.length (completeStr args));
     CompletionItem.cursorLine := line_number host - 1;
     CompletionItem.snippetIndicator :=
       snippetIndicator (sourceParams args) |}.

(** [Array.isArray(result) ? { items: result, isIncomplete: false }
    : result] *)
Definition completionList (result : Result) : CompletionList :=
  match result with
  | ResultArray a =>
      {| items := a; isIncomplete := false; itemDefaults := None |}
  | ResultList l => l
  end.

(** [completionList.items.map(toDdcItem).filter(isDefined)] *)
Definition ddc_items (client : Client.t) (l : CompletionList)
    : list Item :=
  omap (λ lspItem, toDdcItem (completionItem client) lspItem
                     (itemDefaults l))
       (items l).

(** The value the callback of [clients.map] returns for [client], given
    the cache it reads when the cycle starts. *)
Definition callback_items (cache : gmap Z (list Item)) (client : Client.t)
    : list Item :=
  match cache !! Client.id client with
  | Some cached => cached
  | None =>
      match request client with
      | inr (Some result) => ddc_items client (completionList result)
      | _ => []
      end
  end.

Section Cycle.

Variable clients : list Client.t.

(** The synchronous part of the callbacks of [clients.map]: a cached
    client's promise is fulfilled with its entry at once, the others
    wait for [request]. *)
Definition start (cache : gmap Z (list Item)) : Cycle :=
  {| cycle_cache := cache;
     cycle_isIncomplete := false;
     fulfilled := (λ client, cache !! Client.id client) <$> clients;
     rejected := None |}.

(** The rest of the callback of client [i], run when its [request]
    settles while [gather] still awaits [Promise.all].  Once
    [Promise.all] is rejected [gather] goes on at once, without the
    promises still pending; their callbacks run later, see
    [settle_late]. *)
Definition settle (st : Cycle) (i : nat) : Cycle :=
  match rejected st, clients !! i, fulfilled st !! i with
  | None, Some client, Some None =>
      match request client with
      | inl e =>
          {| cycle_cache := cycle_cache st;
             cycle_isIncomplete := cycle_isIncomplete st;
             fulfilled := fulfilled st;
             rejected := Some e |}
      | inr None =>
          {| cycle_cache := cycle_cache st;
             cycle_isIncomplete := cycle_isIncomplete st;
             fulfilled := <[i := Some []]> (fulfilled st);
             rejected := None |}
      | inr (Some result) =>
          let l := completionList result in
          let items := ddc_items client l in
          {| cycle_cache :=
               if isIncomplete l then cycle_cache st
               else <[Client.id client := items]> (cycle_cache st);
             cycle_isIncomplete :=
               cycle_isIncomplete st || isIncomplete l;
             fulfilled := <[i := Some items]> (fulfilled st);
             rejected := None |}
      end
  | _, _, _ => st
  end.

(** The requests settle in the order [order]; a client that [order]
    leaves out settles after those it lists, in the order of
    [clients]. *)
Definition schedule (order : list nat) : list nat :=
  order ++ seq 0 (List.length clients).

(** [await Promise.all(clients.map(...))] *)
Definition await_all (cache : gmap Z (list Item)) (order : list nat)
    : Cycle :=
  foldl settle (start cache) (schedule order).

(** [.then((items) => items.flat(1)).catch((e) => { printError; [] })]
    and the rest of [Source.gather]. *)
Definition gather_clients (cache : gmap Z (list Item))
    (order : list nat) : Gathered :=
  let st := await_all cache order in
  {| gathered_items :=
       match rejected st with
       | None => List.concat (default [] <$> fulfilled st)
       | Some _ => []
       end;
     gathered_isIncomplete := cycle_isIncomplete st;
     item_cache :=
       if cycle_isIncomplete st then cycle_cache st else ∅;
     printed :=
       match rejected st with
       | None => []
       | Some e => [e]
       end;
     requests :=
       omap (λ client,
               match cache !! Client.id client with
               | Some _ => None
               | None => Some (Client.id client, request_params client)
               end)
            clients |}.

(** The state when [gather] returns: the callbacks run so far, and the
    cache after [if (!isIncomplete) this.#item_cache = {}]. *)
Definition at_return (cache : gmap Z (list Item)) (order : list nat)
    : Cycle :=
  let st := await_all cache order in
  {| cycle_cache := if cycle_isIncomplete st then cycle_cache st else ∅;
     cycle_isIncomplete := cycle_isIncomplete st;
     fulfilled := fulfilled st;
     rejected := rejected st |}.

(** The rest of the callback of client [i] when its [request] settles
    after [gather] has returned, which happens to the promises still
    pending when [Promise.all] was rejected: nobody waits for its value
    or its exception any more, but [this.#item_cache[client.id] = items]
    still writes the cache of the source, and [isIncomplete] the local
    variable nobody reads again. *)
Definition settle_late (st : Cycle) (i : nat) : Cycle :=
  match clients !! i, fulfilled st !! i with
  | Some client, Some None =>
      match request client with
      | inl _ => st
      | inr None =>
          {| cycle_cache := cycle_cache st;
             cycle_isIncomplete := cycle_isIncomplete st;
             fulfilled := <[i := Some []]> (fulfilled st);
             rejected := rejected st |}
      | inr (Some result) =>
          let l := completionList result in
          let items := ddc_items client l in
          {| cycle_cache :=
               if isIncomplete l then cycle_cache st
               else <[Client.id client := items]> (cycle_cache st);
             cycle_isIncomplete :=
               cycle_isIncomplete st || isIncomplete l;
             fulfilled := <[i := Some items]> (fulfilled st);
             rejected := rejected st |}
      end
  | _, _ => st
  end.

(** The requests that had not settled when [gather] returned settle in
    the order of the schedule. *)
Definition late_callbacks (cache : gmap Z (list Item))
    (order : list nat) : Cycle :=
  foldl settle_late (at_return cache order) (schedule order).

End Cycle.

(** [Source.gather] *)
Definition gather (cache : gmap Z (list Item)) (order : list nat)
    : Gathered :=
  gather_clients (get_clients host) cache order.

(** [#item_cache] once every callback of the cycle has run: what the
    next cycle finds. *)
Definition settled_cache (cache : gmap Z (list Item)) (order : list nat)
    : gmap Z (list Item) :=
  cycle_cache (late_callbacks (get_clients host) cache order).

End Gather.

(** * Specification

    The notions the properties are stated with. *)

(** ** Confirmation *)

(** The buffer text between the item's suggestion start and the cursor. *)
Definition inserted_text (host : Host) (userData : UserData) : string :=
  Js.slice (LineContext.text (line_context host))
           (suggestCharacter userData)
           (Some (LineContext.character (line_context host))).

(** The candidate [onCompleteDone] goes on with, given the stored one. *)
Definition confirmed_item (host : Host) (userData : UserData)
    (sourceParams : Params) (unresolvedItem : LspItem) : LspItem :=
  if enableResolveItem sourceParams
  then default unresolvedItem
         (lsp_resolve host (clientId userData) unresolvedItem)
  else unresolvedItem.

Definition read_only (log : list HostCall) : Prop :=
  Forall (λ c, mutates c = false) log.

(** ** Preview *)

(** The display document in the words of the specification: three optional
    sections, and a rule before a section when something precedes it. *)
Module PreviewSpec.

Definition rule : string := "---".

(** The detail in a code fence of the buffer's filetype. *)
Definition detail_block (filetype : string) (lspItem : LspItem)
    : option (list string) :=
  match detail lspItem with
  | Some d =>
      if String.eqb d "" then None
      else Some (("```" +:+ filetype) :: splitLines d ++ ["```"])
  | None => None
  end.

(** The module a candidate is imported from, when the stored payload's
    [data] names it. *)
Definition import_annotation (unresolvedItem : LspItem)
    : option (list string) :=
  match tsc_source (data unresolvedItem) with
  | Some source => Some ["import from `" +:+ source +:+ "`"]
  | None => None
  end.

(** The documentation, plain-text markup between [<text>] and [</text>]. *)
Definition documentation_lines (lspItem : LspItem)
    : option (list string) :=
  match documentation lspItem with
  | Some (DocString text) =>
      if String.eqb text "" then None else Some (splitLines text)
  | Some (DocMarkup PlainText value) =>
      if String.eqb value "" then None
      else Some (splitLines ("<text>" +:+ String Js.LF value
                             +:+ String Js.LF "</text>"))
  | Some (DocMarkup Markdown value) =>
      if String.eqb value "" then None else Some (splitLines value)
  | None => None
  end.

(** [assemble produced sections]: the sections in order after [produced],
    a rule before a section exactly when content precedes it. *)
Fixpoint assemble (produced : list string)
    (sections : list (option (list string))) : list string :=
  match sections with
  | [] => produced
  | None :: rest => assemble produced rest
  | Some lines :: rest =>
      assemble (produced
                ++ match produced with [] => [] | _ :: _ => [rule] end
                ++ lines)
               rest
  end.

Definition document (filetype : string) (lspItem unresolvedItem : LspItem)
    : list string :=
  assemble [] [detail_block filetype lspItem;
               import_annotation unresolvedItem;
               documentation_lines lspItem].

End PreviewSpec.

(** ** Gathering *)

(** The character typed last, as a string: the last character of the
    input, or the empty string when there is none. *)
Fixpoint last_typed (input : string) : string :=
  match input with
  | EmptyString => EmptyString
  | String c EmptyString => String c EmptyString
  | String _ rest => last_typed rest
  end.

(** C1 in the words of the specification: every request that throws is
    reported and counts for no items, and the cycle returns the items of
    the other clients. *)
Definition failures_isolated
    (toDdcItem : CompletionItem.t → LspItem → option ItemDefaults
                 → option Item)
    (host : GatherHost) (args : GatherArguments)
    (cache : gmap Z (list Item)) (order : list nat) : Prop :=
  (∀ client e,
     client ∈ get_clients host → cache !! Client.id client = None →
     request host args client = inl e →
     e ∈ printed (gather toDdcItem host args cache order))
  ∧ gathered_items (gather toDdcItem host args cache order)
    = List.concat (callback_items toDdcItem host args cache
                     <$> get_clients host).

Section CycleSpec.

Variable toDdcItem :
  CompletionItem.t → LspItem → option ItemDefaults → option Item.
Variable host : GatherHost.
Variable args : GatherArguments.
Variable clients : list Client.t.
Variable cache : gmap Z (list Item).

Local Abbreviation request := (request host args).
Local Abbreviation ddc_items := (ddc_items toDdcItem host args).
Local Abbreviation callback_items :=
  (callback_items toDdcItem host args cache).

(** One promise settles: the cases of [settle] as a step relation. *)
Inductive settles (st : Cycle) (i : nat) : Cycle → Prop :=
| settles_skip :
    settles st i st
| settles_throw client e :
    rejected st = None →
    clients !! i = Some client →
    fulfilled st !! i = Some None →
    request client = inl e →
    settles st i
      {| cycle_cache := cycle_cache st;
         cycle_isIncomplete := cycle_isIncomplete st;
         fulfilled := fulfilled st;
         rejected := Some e |}
| settles_nothing client :
    rejected st = None →
    clients !! i = Some client →
    fulfilled st !! i = Some None →
    request client = inr None →
    settles st i
      {| cycle_cache := cycle_cache st;
         cycle_isIncomplete := cycle_isIncomplete st;
         fulfilled := <[i := Some []]> (fulfilled st);
         rejected := None |}
| settles_result client result :
    rejected st = None →
    clients !! i = Some client →
    fulfilled st !! i = Some None →
    request client = inr (Some result) →
    settles st i
      {| cycle_cache :=
           if isIncomplete (completionList result) then cycle_cache st
           else <[Client.id client :=
                    ddc_items client (completionList result)]>
                  (cycle_cache st);
         cycle_isIncomplete :=
           cycle_isIncomplete st || isIncomplete (completionList result);
         fulfilled :=
           <[i := Some (ddc_items client (completionList result))]>
             (fulfilled st);
         rejected := None |}.

(** A promise settles after [gather] has returned: the cases of
    [settle_late] that change the state, and the one that does not. *)
Inductive settles_late (st : Cycle) (i : nat) : Cycle → Prop :=
| late_skip :
    settles_late st i st
| late_nothing client :
    clients !! i = Some client →
    fulfilled st !! i = Some None →
    request client = inr None →
    settles_late st i
      {| cycle_cache := cycle_cache st;
         cycle_isIncomplete := cycle_isIncomplete st;
         fulfilled := <[i := Some []]> (fulfilled st);
         rejected := rejected st |}
| late_result client result :
    clients !! i = Some client →
    fulfilled st !! i = Some None →
    request client = inr (Some result) →
    settles_late st i
      {| cycle_cache :=
           if isIncomplete (completionList result) then cycle_cache st
           else <[Client.id client :=
                    ddc_items client (completionList result)]>
                  (cycle_cache st);
         cycle_isIncomplete :=
           cycle_isIncomplete st || isIncomplete (completionList result);
         fulfilled :=
           <[i := Some (ddc_items client (completionList result))]>
             (fulfilled st);
         rejected := rejected st |}.

(** Each client has a slot, and a pending slot belongs to a client that
    was not cached when the cycle started. *)
Definition slots_ok (st : Cycle) : Prop :=
  List.length (fulfilled st) = List.length clients
  ∧ ∀ i client, clients !! i = Some client →
                fulfilled st !! i = Some None →
                cache !! Client.id client = None.

(** Client [i] was asked in this cycle and its callback ran to the end on
    the completion list [l]. *)
Definition responded (st : Cycle) (i : nat) (client : Client.t)
    (l : CompletionList) : Prop :=
  clients !! i = Some client
  ∧ cache !! Client.id client = None
  ∧ (∃ items, fulfilled st !! i = Some (Some items))
  ∧ ∃ result, request client = inr (Some result)
              ∧ completionList result = l.

(** The invariants of a cycle. *)
Record cycle_ok (st : Cycle) : Prop := {
  (* a fulfilled promise holds the callback's value, and its request did
     not throw *)
  ok_fulfilled : ∀ i client items,
    clients !! i = Some client →
    fulfilled st !! i = Some (Some items) →
    items = callback_items client
    ∧ (cache !! Client.id client = None → ∀ e, request client ≠ inl e);
  (* the rejection is the exception of a request of this cycle *)
  ok_rejected : ∀ e,
    rejected st = Some e →
    ∃ i client, clients !! i = Some client
                ∧ cache !! Client.id client = None
                ∧ request client = inl e;
  (* the local [isIncomplete] is the disjunction over the responses *)
  ok_flag :
    cycle_isIncomplete st = true
    ↔ ∃ i client l, responded st i client l ∧ isIncomplete l = true;
  (* entries are kept, and a new entry is a complete response *)
  ok_kept : cache ⊆ cycle_cache st;
  ok_entry : ∀ k items,
    cycle_cache st !! k = Some items →
    cache !! k = Some items
    ∨ ∃ i client l, responded st i client l ∧ Client.id client = k
                    ∧ isIncomplete l = false
                    ∧ items = ddc_items client l;
}.

(** A complete response is in the cache from its callback on. *)
Definition writes_ok (st : Cycle) : Prop :=
  ∀ i client l,
    responded st i client l → isIncomplete l = false →
    cycle_cache st !! Client.id client = Some (ddc_items client l).

(** The invariants of the callbacks that run after [gather] returned in
    the state [returned]: slots only go from pending to fulfilled, an
    entry is one of [returned] or the complete answer of a client, and
    the complete answer of a client is its entry once it was in
    [returned] or its late callback has run. *)
Record late_ok (returned st : Cycle) : Prop := {
  late_length : List.length (fulfilled st) = List.length clients;
  late_pending : ∀ j,
    fulfilled st !! j = Some None → fulfilled returned !! j = Some None;
  late_entry : ∀ k items,
    cycle_cache st !! k = Some items →
    cycle_cache returned !! k = Some items
    ∨ ∃ j c l, clients !! j = Some c ∧ cache !! Client.id c = None
               ∧ (∃ result, request c = inr (Some result)
                            ∧ completionList result = l)
               ∧ Client.id c = k ∧ isIncomplete l = false
               ∧ items = ddc_items c l;
  late_written : ∀ j c result,
    clients !! j = Some c →
    request c = inr (Some result) →
    isIncomplete (completionList result) = false →
    cycle_cache returned !! Client.id c
      = Some (ddc_items c (completionList result))
    ∨ (fulfilled returned !! j = Some None
       ∧ ∃ items, fulfilled st !! j = Some (Some items)) →
    cycle_cache st !! Client.id c
    = Some (ddc_items c (completionList result));
}.

End CycleSpec.


(** A candidate that carries no additional text edits: the field is not
    set, or set to an empty array. *)
Definition no_additional_edits (lspItem : LspItem) : Prop :=
  additionalTextEdits lspItem = None ∨ additionalTextEdits lspItem = Some [].

(** ** Lines *)

(** [free_of c s]: the character [c] does not occur in [s]. *)
Fixpoint free_of (c : ascii) (s : string) : bool :=
  match s with
  | EmptyString => true
  | String c' rest => negb (Ascii.eqb c' c) && free_of c rest
  end.

(** A string without carriage return or line feed. *)
Definition single_line (s : string) : bool :=
  free_of Js.CR s && free_of Js.LF s.

(** [lines.join("\n")] *)
Fixpoint join_lf (lines : list string) : string :=
  match lines with
  | [] => EmptyString
  | [l] => l
  | l :: rest => l +:+ String Js.LF (join_lf rest)
  end.

(** ** Responses of a cycle, whatever the order *)

(** Client [i] has no cache entry and its request is answered with the
    completion list [l]. *)
Definition answers (host : GatherHost) (args : GatherArguments)
    (clients : list Client.t) (cache : gmap Z (list Item))
    (i : nat) (client : Client.t) (l : CompletionList) : Prop :=
  clients !! i = Some client
  ∧ cache !! Client.id client = None
  ∧ ∃ result, request host args client = inr (Some result)
              ∧ completionList result = l.

(** No request of the cycle throws. *)
Definition no_failure (host : GatherHost) (args : GatherArguments)
    (clients : list Client.t) (cache : gmap Z (list Item)) : Prop :=
  ∀ i client e,
    clients !! i = Some client → cache !! Client.id client = None →
    lsp_request host (Client.id client) (request_params host args client)
      (sourceOptions_timeout args) ≠ Thrown e.

(** ** Sample data

    Two providers, a few candidates and stand-ins for the helpers of
    [completion_item.ts], used to run the definitions above. *)

Module Sample.

Definition lsp_item (label : string) : LspItem :=
  {| label := label; kind := None; detail := None; documentation := None;
     insertText := None; insertTextFormat := None; textEdit := None;
     additionalTextEdits := None; data := None |}.

(** Stand-in for [JSON.parse]: the payload is the candidate's label. *)
Definition parse (payload : string) : option LspItem :=
  if String.eqb payload "" then None else Some (lsp_item payload).

(** Stand-in for [getInsertText]: the insert text, else the label. *)
Definition insert_text (lspItem : LspItem) : string :=
  default (label lspItem) (insertText lspItem).

(** Stand-in for [isReplace]: nothing beyond the typed span is replaced. *)
Definition no_replace (_ : LspItem) (_ : ConfirmBehavior) (_ _ : Z)
    : bool := false.

(** Stand-in for [toDdcItem]: drops candidates with an empty label. *)
Definition to_item (c : CompletionItem.t) (lspItem : LspItem)
    (_ : option ItemDefaults) : option Item :=
  if String.eqb (label lspItem) "" then None
  else Some {| word := insert_text lspItem;
               user_data := Some {|
                 lspitem := label lspItem;
                 clientId := CompletionItem.clientId c;
                 offsetEncoding := CompletionItem.offsetEncoding c;
                 resolvable := CompletionItem.resolvable c;
                 lineOnRequest := CompletionItem.lineOnRequest c;
                 requestCharacter := CompletionItem.requestCharacter c;
                 suggestCharacter := CompletionItem.suggestCharacter c |}
            |}.

(** A candidate of denols with a detail, an import source and plain-text
    documentation, and the stand-in for [JSON.parse] that yields it. *)
Definition documented : LspItem :=
  {| label := "console"; kind := Some 6;
     detail := Some "const console: Console";
     documentation := Some (DocMarkup PlainText "The console.");
     insertText := None; insertTextFormat := None; textEdit := None;
     additionalTextEdits := None;
     data := Some (JObject [("tsc",
                             JObject [("source", JString "node:console")])])
  |}.

Definition parse_documented (_ : string) : option LspItem :=
  Some documented.

Definition user_data (resolvable : bool) : UserData :=
  {| lspitem := "console"; clientId := 1; offsetEncoding := Utf16;
     resolvable := resolvable; lineOnRequest := "print.c";
     requestCharacter := 7; suggestCharacter := 6 |}.

(** The buffer after [console] was inserted at offset 6. *)
Definition editor (word : string) : Host :=
  {| completed_item_word := word;
     line_context := {| LineContext.character := 13;
                        LineContext.text := "print.console" |};
     lsp_resolve := λ _ _, None;
     filetype := "typescript";
     parse_snippet := λ body, body |}.

Definition resolving : Params :=
  {| snippetEngine := EngineCallbackId "";
     enableResolveItem := true;
     enableAdditionalTextEdit := false;
     confirmBehavior := insert;
     snippetIndicator := "~" |}.

Definition client (id : Z) : Client.t :=
  {| Client.id := id;
     Client.provider := {| resolveProvider := Some true;
                           triggerCharacters := Some ["."] |};
     Client.offsetEncoding := Utf16 |}.

Definition gather_args (input : string) : GatherArguments :=
  {| context_input := input; args_isIncomplete := false;
     completePos := 6; completeStr := "c"; sourceParams := params;
     sourceOptions_timeout := 2000 |}.

Definition complete (labels : list string) : Reply :=
  Responded (Some (ResultArray (lsp_item <$> labels))).

Definition incomplete (labels : list string) : Reply :=
  Responded (Some (ResultList {| isIncomplete := true;
                                 itemDefaults := None;
                                 items := lsp_item <$> labels |})).

(** Providers 1 and 2, answering [first] and [second]. *)
Definition lsp (first second : Reply) : GatherHost :=
  {| getline := "print.c";
     line_number := 1;
     get_clients := [client 1; client 2];
     make_position_params :=
       {| textDocument := "file:///a.ts";
          position := {| line := 0; character := 7 |} |};
     lsp_request := λ id _ _, if id =? 1 then first else second |}.

Definition run (first second : Reply) (order : list nat) : Gathered :=
  gather to_item (lsp first second) (gather_args "print.c") ∅ order.

(** A cache with an entry for both providers. *)
Definition cached_item : Item := Build_Item "cached" None.

Definition warm_cache : gmap Z (list Item) :=
  <[1 := [cached_item]]> (<[2 := []]> ∅).

(** A host that answers only the requests a trigger character caused. *)
Definition picky : GatherHost :=
  {| getline := "print.";
     line_number := 1;
     get_clients := [client 1; client 2];
     make_position_params :=
       {| textDocument := "file:///a.ts";
          position := {| line := 0; character := 6 |} |};
     lsp_request := λ _ sent _,
       match triggerKind (context sent) with
       | TriggerCharacter => complete ["dot"]
       | _ => Thrown "not triggered"
       end |}.

(** A candidate whose [additionalTextEdits] is the empty array, and
    parameters that enable additional text edits. *)
Definition without_edits : LspItem :=
  {| label := "console"; kind := None; detail := None;
     documentation := None; insertText := None; insertTextFormat := None;
     textEdit := None; additionalTextEdits := Some []; data := None |}.

Definition editing : Params :=
  {| snippetEngine := EngineCallbackId "";
     enableResolveItem := false;
     enableAdditionalTextEdit := true;
     confirmBehavior := insert;
     snippetIndicator := "~" |}.

(** The buffer with the cursor moved back before the suggestion start. *)
Definition editor_moved_back : Host :=
  {| completed_item_word := "console";
     line_context := {| LineContext.character := 3;
                        LineContext.text := "print.console" |};
     lsp_resolve := λ _ _, None;
     filetype := "typescript";
     parse_snippet := λ body, body |}.

End Sample.

(** * Properties *)

(** ** Strings *)

Section StringFacts.

Lemma substring_end (s : string) (c : ascii) :
  substring (String.length s) 1 (s +:+ String c "") = String c "".
Proof. induction s as [|a s IH]; simpl; [done | exact IH]. Qed.

Lemma length_snoc (s : string) (c : ascii) :
  String.length (s +:+ String c "") = S (String.length s).
Proof. induction s as [|a s IH]; simpl; [done | by rewrite IH]. Qed.

(** [input.slice(-1)] is the last code unit of [input]. *)
Lemma slice_last (s : string) (c : ascii) :
  Js.slice (s +:+ String c "") (-1) None = String c "".
Proof.
  unfold Js.slice, Js.relative_index. rewrite length_snoc.
  change (-1 <? 0) with true. cbv iota.
  set (len := String.length s).
  replace (Z.to_nat (Z.max (Z.of_nat (S len) + -1) 0)) with len by lia.
  replace (Z.to_nat (Z.max (Z.of_nat (S len) - _) 0)) with 1%nat by lia.
  apply substring_end.
Qed.

Lemma slice_last_empty : Js.slice "" (-1) None = "".
Proof. reflexivity. Qed.

Lemma includes_elem_of (arr : list string) (x : string) :
  Js.includes arr x = true ↔ x ∈ arr.
Proof.
  unfold Js.includes. rewrite existsb_exists. split.
  - intros (y & Hin & Heq). apply String.eqb_eq in Heq. subst y.
    by apply list_elem_of_In.
  - intros Hin. exists x. split; [by apply list_elem_of_In |].
    apply String.eqb_refl.
Qed.

Lemma split_lf_nonempty (s : string) : Js.split_lf s ≠ [].
Proof.
  induction s as [|c s IH]; simpl; [done |].
  destruct (Ascii.eqb c Js.LF); [done |].
  by destruct (Js.split_lf s).
Qed.

Lemma splitLines_nonempty (s : string) : splitLines s ≠ [].
Proof. apply split_lf_nonempty. Qed.

(** Splitting distributes over a line feed. *)
Lemma split_lf_app (s t : string) :
  Js.split_lf (s +:+ String Js.LF t) = Js.split_lf s ++ Js.split_lf t.
Proof.
  induction s as [|c s IH]; simpl; [done |].
  destruct (Ascii.eqb c Js.LF); [by rewrite IH |].
  rewrite IH. pose proof (split_lf_nonempty s) as Hne.
  by destruct (Js.split_lf s).
Qed.

(** A text that ends in a line feed followed by a tail free of line
    ends still does after normalization, whatever precedes. *)
Lemma normalize_eol_tail (tail : string) :
  Js.normalize_eol tail = tail →
  ∀ n s, (String.length s ≤ n)%nat →
    ∃ s', Js.normalize_eol (s +:+ String Js.LF tail)
          = s' +:+ String Js.LF tail.
Proof.
  intros Htail n. induction n as [|n IH]; intros s Hlen.
  - destruct s; [|simpl in Hlen; lia].
    exists "". simpl. by rewrite Htail.
  - destruct s as [|c s].
    { exists "". simpl. by rewrite Htail. }
    simpl in Hlen. simpl.
    destruct (Ascii.eqb c Js.CR).
    + destruct s as [|c' s]; simpl.
      { exists "". simpl. by rewrite Htail. }
      destruct (Ascii.eqb c' Js.LF).
      * destruct (IH s) as [s' Hs']; [simpl in Hlen; lia |].
        exists (String Js.LF s'). simpl. by rewrite Hs'.
      * destruct (IH (String c' s)) as [s' Hs']; [lia |].
        exists (String Js.LF s'). simpl. simpl in Hs'. by rewrite Hs'.
    + destruct (IH s) as [s' Hs']; [lia |].
      exists (String c s'). simpl. by rewrite Hs'.
Qed.

(** The lines of a plain-text value wrapped by [converter]: the markers
    are the first and the last line. *)
Lemma splitLines_text_markers (value : string) :
  ∃ lines,
    splitLines ("<text>" +:+ String Js.LF value +:+ String Js.LF "</text>")
    = "<text>" :: lines ++ ["</text>"].
Proof.
  destruct (normalize_eol_tail "</text>" eq_refl (String.length value)
              value (le_n _)) as [s' Hs'].
  exists (Js.split_lf s'). unfold splitLines.
  change (Js.normalize_eol
            ("<text>" +:+ String Js.LF value +:+ String Js.LF "</text>"))
    with ("<text>" +:+ String Js.LF
            (Js.normalize_eol (value +:+ String Js.LF "</text>"))).
  rewrite Hs'. rewrite split_lf_app. simpl Js.split_lf at 1.
  rewrite split_lf_app. reflexivity.
Qed.

End StringFacts.

(** ** Confirmation *)

Section ConfirmFacts.

Variable JSON_parse : string → option LspItem.
Variable getInsertText : LspItem → string.
Variable isReplace : LspItem → ConfirmBehavior → Z → Z → bool.
Variable host : Host.

Local Abbreviation onCompleteDone :=
  (onCompleteDone JSON_parse getInsertText isReplace host).
Local Abbreviation needs_confirm := (needs_confirm getInsertText isReplace).

Lemma resolve_eq (clientId : Z) (lspItem : LspItem) :
  resolve host clientId lspItem
  = ([LuaResolve clientId lspItem],
     inr (default lspItem (lsp_resolve host clientId lspItem))).
Proof. reflexivity. Qed.

Lemma onCompleteDone_stale (userData : UserData) (sourceParams : Params) :
  inserted_text host userData ≠ completed_item_word host →
  onCompleteDone userData sourceParams
  = ([EvalCompletedItemWord; LineContextCreate], inr tt).
Proof.
  intros Hne. unfold onCompleteDone, inserted_text in *. cbn.
  destruct (String.eqb_spec
              (Js.slice (LineContext.text (line_context host))
                 (suggestCharacter userData)
                 (Some (LineContext.character (line_context host))))
              (completed_item_word host)) as [Heq | _]; [done |].
  reflexivity.
Qed.

(** Every call of a confirmation whose guard passes. *)
Lemma onCompleteDone_fresh (userData : UserData) (sourceParams : Params)
    (unresolvedItem : LspItem) :
  inserted_text host userData = completed_item_word host →
  JSON_parse (lspitem userData) = Some unresolvedItem →
  let lspItem := confirmed_item host userData sourceParams unresolvedItem in
  onCompleteDone userData sourceParams
  = ([EvalCompletedItemWord; LineContextCreate]
     ++ (if enableResolveItem sourceParams
         then [LuaResolve (clientId userData) unresolvedItem] else [])
     ++ (if needs_confirm lspItem (completed_item_word host)
              userData sourceParams
         then [CmdSetUndoPoint;
               CompletionItemConfirm lspItem unresolvedItem
                 userData sourceParams;
               CallSkipNextComplete]
         else []),
      inr tt).
Proof.
  intros Heq Hparse lspItem. subst lspItem.
  unfold onCompleteDone, inserted_text, confirmed_item in *. cbn.
  rewrite Heq, String.eqb_refl. cbn.
  unfold parse_lspitem. rewrite Hparse. cbn.
  destruct (enableResolveItem sourceParams); cbn;
    match goal with
    | |- context [needs_confirm ?i ?w ?u ?p] =>
        destruct (needs_confirm i w u p)
    end; reflexivity.
Qed.

Lemma needs_confirm_false (lspItem : LspItem) (itemWord : string)
    (userData : UserData) (sourceParams : Params) :
  getInsertText lspItem = itemWord →
  additionalTextEdits lspItem = None
    ∨ enableAdditionalTextEdit sourceParams = false →
  isReplace lspItem (confirmBehavior sourceParams)
    (suggestCharacter userData) (requestCharacter userData) = false →
  needs_confirm lspItem itemWord userData sourceParams = false.
Proof.
  intros Htext Hedits Hreplace. unfold needs_confirm.
  rewrite Htext, String.eqb_refl, Hreplace.
  destruct Hedits as [-> | ->]; [|done].
  rewrite bool_decide_eq_false_2; [by rewrite andb_false_r |].
  by intros [? ?].
Qed.

(** C4. When the buffer text between the item's recorded suggestion
    start and the cursor is not the accepted word, [onCompleteDone]
    returns at once: it has only read the accepted word and the line
    context, has made no call that changes the editor, and ends
    normally, without an exception. *)
Theorem onCompleteDone_guard (userData : UserData)
    (sourceParams : Params) :
  inserted_text host userData ≠ completed_item_word host →
  calls (onCompleteDone userData sourceParams)
    = [EvalCompletedItemWord; LineContextCreate]
  ∧ read_only (calls (onCompleteDone userData sourceParams))
  ∧ outcome (onCompleteDone userData sourceParams) = inr tt.
Proof.
  intros Hne. rewrite (onCompleteDone_stale _ _ Hne).
  split_and!; [done | | done].
  unfold read_only. cbn. by repeat constructor.
Qed.

(** C5, amended. Once the guard has passed, [onCompleteDone] asks the
    provider to resolve the stored candidate exactly when
    [enableResolveItem] is set, whatever the item's [resolvable] flag;
    when the answer is [null] it goes on with the stored candidate: the
    candidate tested and handed to [CompletionItem.confirm] is
    [confirmed_item]. *)
Theorem onCompleteDone_resolves_when_enabled (userData : UserData)
    (sourceParams : Params) (unresolvedItem : LspItem) :
  inserted_text host userData = completed_item_word host →
  JSON_parse (lspitem userData) = Some unresolvedItem →
  let lspItem := confirmed_item host userData sourceParams unresolvedItem in
  let log := calls (onCompleteDone userData sourceParams) in
  (∀ id item,
     LuaResolve id item ∈ log
     ↔ enableResolveItem sourceParams = true
       ∧ id = clientId userData ∧ item = unresolvedItem)
  ∧ (∀ item unresolved data p,
       CompletionItemConfirm item unresolved data p ∈ log →
       item = lspItem ∧ unresolved = unresolvedItem)
  ∧ (lsp_resolve host (clientId userData) unresolvedItem = None →
     lspItem = unresolvedItem)
  ∧ (∀ resolved,
       enableResolveItem sourceParams = true →
       lsp_resolve host (clientId userData) unresolvedItem = Some resolved →
       lspItem = resolved).
Proof.
  intros Heq Hparse lspItem log. subst log.
  rewrite (onCompleteDone_fresh _ _ _ Heq Hparse). fold lspItem. cbn [calls fst].
  split_and!.
  - intros id item. rewrite !elem_of_app.
    destruct (enableResolveItem sourceParams);
      destruct (needs_confirm lspItem _ userData sourceParams);
      rewrite ?elem_of_cons, ?elem_of_nil; intuition congruence.
  - intros item unresolved ud p. rewrite !elem_of_app.
    destruct (enableResolveItem sourceParams);
      destruct (needs_confirm lspItem _ userData sourceParams);
      rewrite ?elem_of_cons, ?elem_of_nil; intuition congruence.
  - intros Hnull. subst lspItem. unfold confirmed_item. rewrite Hnull.
    by destruct (enableResolveItem sourceParams).
  - intros resolved Hon Hres. subst lspItem. unfold confirmed_item.
    by rewrite Hon, Hres.
Qed.

(** C8, amended. Once the guard has passed, if the candidate's insert text is the
    accepted word, its [additionalTextEdits] is not set (or
    [enableAdditionalTextEdit] is off) and [isReplace] answers false,
    then [onCompleteDone] makes no call that changes the editor: no undo
    break, no [CompletionItem.confirm], no [ddc#skip_next_complete]. *)
Theorem onCompleteDone_native_insertion_suffices (userData : UserData)
    (sourceParams : Params) (unresolvedItem : LspItem) :
  inserted_text host userData = completed_item_word host →
  JSON_parse (lspitem userData) = Some unresolvedItem →
  let lspItem := confirmed_item host userData sourceParams unresolvedItem in
  getInsertText lspItem = completed_item_word host →
  additionalTextEdits lspItem = None
    ∨ enableAdditionalTextEdit sourceParams = false →
  isReplace lspItem (confirmBehavior sourceParams)
    (suggestCharacter userData) (requestCharacter userData) = false →
  read_only (calls (onCompleteDone userData sourceParams))
  ∧ outcome (onCompleteDone userData sourceParams) = inr tt.
Proof.
  intros Heq Hparse lspItem Htext Hedits Hreplace.
  rewrite (onCompleteDone_fresh _ _ _ Heq Hparse). fold lspItem.
  rewrite (needs_confirm_false _ _ _ _ Htext Hedits Hreplace).
  split; [|done]. unfold read_only. cbn [calls fst].
  destruct (enableResolveItem sourceParams); cbn; by repeat constructor.
Qed.

End ConfirmFacts.

Lemma onCompleteDone_guard_witness :
  inserted_text (Sample.editor "consol") (Sample.user_data true) ≠ "consol"
  ∧ calls (onCompleteDone Sample.parse Sample.insert_text Sample.no_replace
             (Sample.editor "consol") (Sample.user_data true)
             Sample.resolving)
    = [EvalCompletedItemWord; LineContextCreate].
Proof.
  assert (inserted_text (Sample.editor "consol") (Sample.user_data true)
          ≠ "consol") as Hne by (vm_compute; discriminate).
  split; [exact Hne |].
  exact (proj1 (onCompleteDone_guard Sample.parse Sample.insert_text
                  Sample.no_replace (Sample.editor "consol")
                  (Sample.user_data true) Sample.resolving Hne)).
Defined.

Lemma onCompleteDone_resolves_when_enabled_witness :
  enableResolveItem Sample.resolving = true
  ∧ LuaResolve 1 (Sample.lsp_item "console")
    ∈ calls (onCompleteDone Sample.parse Sample.insert_text
               Sample.no_replace (Sample.editor "console")
               (Sample.user_data true) Sample.resolving).
Proof.
  split; [reflexivity |].
  apply (proj1 (onCompleteDone_resolves_when_enabled Sample.parse
                  Sample.insert_text Sample.no_replace
                  (Sample.editor "console") (Sample.user_data true)
                  Sample.resolving (Sample.lsp_item "console")
                  eq_refl eq_refl)).
  repeat split.
Defined.

(** C5 as stated fails: with [enableResolveItem] set, an item whose
    [resolvable] flag is false is sent to the provider for resolution all
    the same. *)
Lemma onCompleteDone_ignores_resolvable :
  ¬ (LuaResolve 1 (Sample.lsp_item "console")
       ∈ calls (onCompleteDone Sample.parse Sample.insert_text
                  Sample.no_replace (Sample.editor "console")
                  (Sample.user_data false) Sample.resolving)
     ↔ resolvable (Sample.user_data false) = true
       ∧ enableResolveItem Sample.resolving = true).
Proof.
  intros [Hfetched _].
  assert (LuaResolve 1 (Sample.lsp_item "console")
            ∈ calls (onCompleteDone Sample.parse Sample.insert_text
                       Sample.no_replace (Sample.editor "console")
                       (Sample.user_data false) Sample.resolving)) as Hin.
  { apply list_elem_of_In. vm_compute. auto. }
  destruct (Hfetched Hin) as [Hresolvable _]. discriminate Hresolvable.
Qed.

Lemma onCompleteDone_native_insertion_suffices_witness :
  inserted_text (Sample.editor "console") (Sample.user_data true) = "console"
  ∧ read_only (calls (onCompleteDone Sample.parse Sample.insert_text
                        Sample.no_replace (Sample.editor "console")
                        (Sample.user_data true) params)).
Proof.
  split; [reflexivity |].
  exact (proj1 (onCompleteDone_native_insertion_suffices Sample.parse
                  Sample.insert_text Sample.no_replace
                  (Sample.editor "console") (Sample.user_data true) params
                  (Sample.lsp_item "console")
                  eq_refl eq_refl eq_refl (or_introl eq_refl) eq_refl)).
Defined.

(** An [additionalTextEdits] that is set to the empty array counts as set:
    with [enableAdditionalTextEdit] on, the corrective path runs. *)
Example onCompleteDone_empty_additionalTextEdits :
  let lspItem :=
    {| label := "console"; kind := None; detail := None;
       documentation := None; insertText := None; insertTextFormat := None;
       textEdit := None; additionalTextEdits := Some []; data := None |} in
  let sourceParams :=
    {| snippetEngine := EngineCallbackId ""; enableResolveItem := false;
       enableAdditionalTextEdit := true; confirmBehavior := insert;
       snippetIndicator := "~" |} in
  calls (onCompleteDone (λ _, Some lspItem) Sample.insert_text
           Sample.no_replace (Sample.editor "console")
           (Sample.user_data true) sourceParams)
  = [EvalCompletedItemWord; LineContextCreate; CmdSetUndoPoint;
     CompletionItemConfirm lspItem lspItem (Sample.user_data true)
       sourceParams;
     CallSkipNextComplete].
Proof. reflexivity. Qed.

(** ** Preview *)

Section PreviewFacts.

Variable JSON_parse : string → option LspItem.
Variable getInsertText : LspItem → string.
Variable host : Host.

Lemma nonempty_string (s : string) :
  bool_decide (0 < String.length s)%nat = negb (String.eqb s "").
Proof. destruct s; reflexivity. Qed.

Lemma push_rule_cons (l : string) (ls : list string) :
  push_rule (l :: ls) = (l :: ls) ++ ["---"].
Proof.
  unfold push_rule. rewrite bool_decide_eq_true_2; [done |]. simpl. lia.
Qed.

(** The array built by the pushes is the document of the specification. *)
Lemma preview_contents_document (filetype : string)
    (lspItem unresolvedItem : LspItem) :
  preview_contents filetype lspItem unresolvedItem
  = PreviewSpec.document filetype lspItem unresolvedItem.
Proof.
  unfold preview_contents, PreviewSpec.document, PreviewSpec.detail_block,
    PreviewSpec.import_annotation, PreviewSpec.documentation_lines,
    PreviewSpec.rule, truthy, has_documentation, converter.
  destruct (detail lspItem) as [d|];
    [destruct (String.eqb d "")|];
    destruct (tsc_source (data unresolvedItem)) as [source|];
    destruct (documentation lspItem) as [[text | [] value]|];
    rewrite ?nonempty_string;
    try destruct (String.eqb text "");
    try destruct (String.eqb value "");
    cbn [negb PreviewSpec.assemble app]; unfold PreviewSpec.rule;
    repeat (rewrite push_rule_cons; cbn [app]);
    rewrite <- ?app_assoc; cbn [app]; reflexivity.
Qed.

(** C10. For an item without [user_data], [getPreviewer] returns the
    empty previewer at once: no resolution, no host call. *)
Theorem getPreviewer_without_user_data (item : Item) :
  user_data item = None →
  getPreviewer JSON_parse getInsertText host item = ([], inr PreviewEmpty).
Proof. intros Hnone. unfold getPreviewer. by rewrite Hnone. Qed.

(** C9. For a previewed item that is not of kind 15 (snippet),
    [getPreviewer] returns the markdown document made, in this order, of
    the fenced detail (when [detail] is a non-empty string), the
    import-source line (when the stored payload's [data.tsc.source] is a
    string) and the documentation lines (when the documentation is not
    empty), with a [---] line before a section exactly when an earlier
    section produced content; plain-text markup appears between a first
    line [<text>] and a last line [</text>]. *)
Theorem getPreviewer_document (item : Item) (userData : UserData)
    (unresolvedItem : LspItem) :
  user_data item = Some userData →
  JSON_parse (lspitem userData) = Some unresolvedItem →
  let lspItem := default unresolvedItem
                   (lsp_resolve host (clientId userData) unresolvedItem) in
  kind lspItem ≠ Some 15 →
  outcome (getPreviewer JSON_parse getInsertText host item)
  = inr (PreviewMarkdown
           (PreviewSpec.document (filetype host) lspItem unresolvedItem))
  ∧ (∀ value,
       documentation lspItem = Some (DocMarkup PlainText value) →
       value ≠ "" →
       ∃ lines,
         PreviewSpec.documentation_lines lspItem
         = Some ("<text>" :: lines ++ ["</text>"])).
Proof.
  intros Hdata Hparse lspItem Hkind. split.
  - unfold getPreviewer, parse_lspitem. rewrite Hdata, Hparse.
    cbn -[PreviewSpec.document]. fold lspItem.
    rewrite bool_decide_eq_false_2 by exact Hkind.
    cbn -[PreviewSpec.document]. by rewrite preview_contents_document.
  - intros value Hdoc Hne. unfold PreviewSpec.documentation_lines.
    rewrite Hdoc. destruct (String.eqb_spec value "") as [-> | _]; [done |].
    destruct (splitLines_text_markers value) as [lines Hlines].
    exists lines. by rewrite Hlines.
Qed.

End PreviewFacts.

Lemma getPreviewer_document_witness :
  outcome (getPreviewer Sample.parse_documented Sample.insert_text
             (Sample.editor "console")
             {| word := "console";
                user_data := Some (Sample.user_data true) |})
  = inr (PreviewMarkdown
           ["```typescript"; "const console: Console"; "```";
            "---"; "import from `node:console`";
            "---"; "<text>"; "The console."; "</text>"]).
Proof.
  refine (proj1 (getPreviewer_document Sample.parse_documented
                   Sample.insert_text (Sample.editor "console")
                   {| word := "console";
                      user_data := Some (Sample.user_data true) |}
                   (Sample.user_data true) Sample.documented
                   eq_refl eq_refl _)).
  cbn. discriminate.
Defined.

Lemma getPreviewer_without_user_data_witness :
  getPreviewer Sample.parse Sample.insert_text (Sample.editor "console")
    {| word := "console"; user_data := None |}
  = ([], inr PreviewEmpty).
Proof.
  exact (getPreviewer_without_user_data Sample.parse Sample.insert_text
           (Sample.editor "console")
           {| word := "console"; user_data := None |} eq_refl).
Defined.

(** ** Gathering *)

Section GatherFacts.

Variable toDdcItem :
  CompletionItem.t → LspItem → option ItemDefaults → option Item.
Variable host : GatherHost.
Variable args : GatherArguments.
Variable clients : list Client.t.
Variable cache : gmap Z (list Item).

Local Abbreviation request := (request host args).
Local Abbreviation ddc_items := (ddc_items toDdcItem host args).
Local Abbreviation settle := (settle toDdcItem host args clients).
Local Abbreviation start := (start clients cache).
Local Abbreviation await_all := (await_all toDdcItem host args clients cache).
Local Abbreviation callback_items :=
  (callback_items toDdcItem host args cache).
Local Abbreviation settles := (settles toDdcItem host args clients).
Local Abbreviation slots_ok := (slots_ok clients cache).
Local Abbreviation responded := (responded host args clients cache).
Local Abbreviation cycle_ok := (cycle_ok toDdcItem host args clients cache).
Local Abbreviation writes_ok :=
  (writes_ok toDdcItem host args clients cache).

Lemma settle_settles (st : Cycle) (i : nat) : settles st i (settle st i).
Proof.
  unfold settle.
  destruct (rejected st) eqn:Hrej; [constructor |].
  destruct (clients !! i) as [client|] eqn:Hclient; [|constructor].
  destruct (fulfilled st !! i) as [[items|]|] eqn:Hslot; try constructor.
  destruct (request client) as [e | [result|]] eqn:Hreq.
  - by eapply settles_throw.
  - by eapply settles_result.
  - by eapply settles_nothing.
Qed.

(** Induction over the promises settling one after the other. *)
Lemma foldl_settle_ind (P : Cycle → Prop) (order : list nat) :
  ∀ st, P st → (∀ st i st', P st → settles st i st' → P st') →
        P (foldl settle st order).
Proof.
  induction order as [|i order IH]; intros st Hst Hstep; [done |].
  simpl. apply IH; [|done]. eapply Hstep; [done | apply settle_settles].
Qed.

(** *** Slots *)

Lemma start_slot (i : nat) (client : Client.t) :
  clients !! i = Some client →
  fulfilled start !! i = Some (cache !! Client.id client).
Proof.
  intros Hclient. unfold start. cbn.
  by rewrite list_lookup_fmap, Hclient.
Qed.

Lemma slots_ok_start : slots_ok start.
Proof.
  split.
  - unfold start. cbn. by rewrite length_fmap.
  - intros i client Hclient Hslot.
    rewrite (start_slot _ _ Hclient) in Hslot. by injection Hslot.
Qed.

Lemma slots_ok_step (st st' : Cycle) (i : nat) :
  slots_ok st → settles st i st' → slots_ok st'.
Proof.
  intros [Hlen Hpending] Hstep.
  destruct Hstep; (split; cbn; [by rewrite ?length_insert |]);
    intros j c Hc Hslot; try (by eapply Hpending);
    apply list_lookup_insert_Some in Hslot as [(_ & ? & _) | (_ & Hslot)];
    try done; by eapply Hpending.
Qed.

Lemma slots_ok_foldl (order : list nat) (st : Cycle) :
  slots_ok st → slots_ok (foldl settle st order).
Proof.
  intros Hst. apply foldl_settle_ind; [done |].
  intros ????. by apply slots_ok_step.
Qed.

(** A fulfilled slot stays as it is. *)
Lemma fulfilled_step (st st' : Cycle) (i j : nat) (items : list Item) :
  settles st i st' →
  fulfilled st !! j = Some (Some items) →
  fulfilled st' !! j = Some (Some items).
Proof.
  intros Hstep Hslot. destruct Hstep; cbn; try done;
    (rewrite list_lookup_insert_ne; [done | congruence]).
Qed.

Lemma fulfilled_foldl (order : list nat) (j : nat) (items : list Item) :
  ∀ st, fulfilled st !! j = Some (Some items) →
        fulfilled (foldl settle st order) !! j = Some (Some items).
Proof.
  induction order as [|i order IH]; intros st Hslot; [done |].
  simpl. apply IH. eapply fulfilled_step; [apply settle_settles | done].
Qed.

(** *** Rejection *)

Lemma settle_rejected (st : Cycle) (i : nat) (e : Exn) :
  rejected st = Some e → settle st i = st.
Proof. intros Hrej. unfold settle. by rewrite Hrej. Qed.

Lemma foldl_settle_rejected (order : list nat) (st : Cycle) (e : Exn) :
  rejected st = Some e → foldl settle st order = st.
Proof.
  intros Hrej. induction order as [|i order IH]; [done |].
  simpl. by rewrite (settle_rejected _ _ _ Hrej).
Qed.

Lemma foldl_settle_not_rejected (order : list nat) (st : Cycle) :
  rejected (foldl settle st order) = None → rejected st = None.
Proof.
  intros Hnone. destruct (rejected st) as [e|] eqn:Hrej; [|done].
  by rewrite (foldl_settle_rejected _ _ _ Hrej), Hrej in Hnone.
Qed.

(** A client's promise is settled by its turn, unless the cycle is
    rejected. *)
Lemma settle_fulfils (st : Cycle) (i : nat) :
  slots_ok st → (i < List.length clients)%nat →
  rejected (settle st i) = None →
  ∃ items, fulfilled (settle st i) !! i = Some (Some items).
Proof.
  intros [Hlen _] Hi Hnone.
  destruct (lookup_lt_is_Some_2 clients i Hi) as [client Hclient].
  destruct (lookup_lt_is_Some_2 (fulfilled st) i) as [slot Hslot]; [lia |].
  unfold settle in *. rewrite Hclient, Hslot in *.
  destruct (rejected st) eqn:Hrej; [cbn in Hnone; congruence |].
  destruct slot as [items|]; [by exists items |].
  destruct (request client) as [e | [result|]]; [done | |]; cbn;
    eexists; apply list_lookup_insert_eq; lia.
Qed.

Lemma foldl_settle_fulfils (order : list nat) (i : nat) :
  ∀ st, slots_ok st → i ∈ order → (i < List.length clients)%nat →
        rejected (foldl settle st order) = None →
        ∃ items, fulfilled (foldl settle st order) !! i = Some (Some items).
Proof.
  induction order as [|j order IH]; intros st Hok Hin Hi Hnone.
  { by apply elem_of_nil in Hin. }
  simpl in *. apply elem_of_cons in Hin as [<- | Hin].
  - destruct (settle_fulfils st i Hok Hi) as [items Hitems].
    { by eapply foldl_settle_not_rejected. }
    exists items. by apply fulfilled_foldl.
  - apply IH; try done. eapply slots_ok_step; [done | apply settle_settles].
Qed.

(** When [Promise.all] is fulfilled, every promise is. *)
Lemma await_all_fulfils (order : list nat) (i : nat) (client : Client.t) :
  clients !! i = Some client →
  rejected (await_all order) = None →
  ∃ items, fulfilled (await_all order) !! i = Some (Some items).
Proof.
  intros Hclient Hnone. apply lookup_lt_Some in Hclient as Hi.
  apply foldl_settle_fulfils; try done.
  - apply slots_ok_start.
  - unfold schedule. apply elem_of_app. right. apply elem_of_seq. lia.
Qed.

(** *** Responses *)

Lemma responded_start (i : nat) (client : Client.t) (l : CompletionList) :
  ¬ responded start i client l.
Proof.
  intros (Hclient & Hnone & [items Hslot] & _).
  rewrite (start_slot _ _ Hclient), Hnone in Hslot. discriminate.
Qed.

Lemma responded_step (st st' : Cycle) (i j : nat) (client : Client.t)
    (l : CompletionList) :
  settles st i st' → responded st j client l → responded st' j client l.
Proof.
  intros Hstep (Hclient & Hnone & [items Hslot] & Hreq).
  split_and!; try done. exists items. by eapply fulfilled_step.
Qed.

(** The responses after a step are those before it and, when the step is
    a reply with a result, that reply. *)
Lemma responded_step_inv (st st' : Cycle) (i j : nat) (client : Client.t)
    (l : CompletionList) :
  settles st i st' → responded st' j client l →
  responded st j client l
  ∨ (j = i ∧ fulfilled st !! i = Some None
     ∧ cycle_isIncomplete st' = cycle_isIncomplete st || isIncomplete l
     ∧ cycle_cache st'
       = if isIncomplete l then cycle_cache st
         else <[Client.id client := ddc_items client l]> (cycle_cache st)).
Proof.
  intros Hstep (Hclient & Hnone & [items Hslot] & result & Hreq & Hl).
  destruct Hstep as [| c e ? Hc Hpending Hreq' | c ? Hc Hpending Hreq'
                     | c r ? Hc Hpending Hreq']; cbn in *.
  - left. split_and!; eauto.
  - left. split_and!; eauto.
  - apply list_lookup_insert_Some in Hslot as [(<- & _) | (_ & Hslot)].
    + congruence.
    + left. split_and!; eauto.
  - apply list_lookup_insert_Some in Hslot as [(<- & _) | (_ & Hslot)].
    + right. assert (c = client) as -> by congruence.
      assert (r = result) as -> by congruence. by subst l.
    + left. split_and!; eauto.
Qed.

(** *** Invariants of a cycle *)

Lemma cycle_ok_start : cycle_ok start.
Proof.
  split.
  - intros i client items Hclient Hslot.
    rewrite (start_slot _ _ Hclient) in Hslot.
    injection Hslot as Hcached. unfold callback_items.
    rewrite Hcached. split; [done | congruence].
  - intros e Hrej. discriminate Hrej.
  - split; [intros Hflag; discriminate Hflag |].
    intros (i & client & l & Hresp & _). by apply responded_start in Hresp.
  - done.
  - intros k items Hk. by left.
Qed.

Lemma cycle_ok_step (st st' : Cycle) (i : nat) :
  slots_ok st → cycle_ok st → settles st i st' → cycle_ok st'.
Proof.
  intros [Hlen Hpending] [Hful Hrej Hflag Hkept Hentry] Hstep.
  pose proof Hstep as Hstep'.
  destruct Hstep as [| c e Hnone Hc Hslot Hreq | c Hnone Hc Hslot Hreq
                     | c r Hnone Hc Hslot Hreq].
  - by split.
  - (* the request threw *)
    split; cbn; try done.
    intros e' [= <-]. exists i, c. split_and!; eauto.
  - (* no result: a timeout or a null response *)
    split; cbn; try done.
    + intros j c' items Hc' Hj.
      apply list_lookup_insert_Some in Hj as [(<- & [= <-] & _) | (_ & Hj)];
        [|by eapply Hful].
      assert (c' = c) as -> by congruence.
      pose proof (Hpending _ _ Hc Hslot) as Hfresh.
      unfold callback_items. rewrite Hfresh, Hreq.
      split; [done | congruence].
    + rewrite Hflag. split; intros (j & c' & l & Hresp & Hl);
        exists j, c', l; split; try done.
      * by eapply responded_step.
      * destruct (responded_step_inv _ _ _ _ _ _ Hstep' Hresp)
          as [? | (-> & _)]; [done |].
        destruct Hresp as (Hc' & _ & _ & result & Hreq' & _). congruence.
    + intros k items Hk. destruct (Hentry k items Hk)
        as [? | (j & c' & l & Hresp & ?)]; [by left | right].
      exists j, c', l. split; [by eapply responded_step | done].
  - (* a result *)
    pose proof (Hpending _ _ Hc Hslot) as Hfresh.
    assert (responded
              {| cycle_cache :=
                   if isIncomplete (completionList r) then cycle_cache st
                   else <[Client.id c := ddc_items c (completionList r)]>
                          (cycle_cache st);
                 cycle_isIncomplete :=
                   cycle_isIncomplete st || isIncomplete (completionList r);
                 fulfilled :=
                   <[i := Some (ddc_items c (completionList r))]>
                     (fulfilled st);
                 rejected := None |} i c (completionList r)) as Hnew.
    { split_and!; try done; [|by exists r].
      eexists. cbn. apply list_lookup_insert_eq.
      by eapply lookup_lt_Some. }
    split; cbn.
    + intros j c' items Hc' Hj.
      apply list_lookup_insert_Some in Hj as [(<- & [= <-] & _) | (_ & Hj)];
        [|by eapply Hful].
      assert (c' = c) as -> by congruence.
      unfold callback_items. rewrite Hfresh, Hreq.
      split; [done | congruence].
    + done.
    + rewrite orb_true_iff, Hflag. split.
      * intros [(j & c' & l & Hresp & Hl) | Hl].
        -- exists j, c', l. split; [by eapply responded_step | done].
        -- by exists i, c, (completionList r).
      * intros (j & c' & l & Hresp & Hl).
        destruct (responded_step_inv _ _ _ _ _ _ Hstep' Hresp)
          as [? | (-> & _)]; [left; by exists j, c', l | right].
        destruct Hresp as (Hc' & _ & _ & result & Hreq' & <-). congruence.
    + destruct (isIncomplete (completionList r)); [done |].
      by apply insert_subseteq_r; [eapply lookup_weaken_None|].
    + intros k items Hk.
      assert (cycle_cache st !! k = Some items
              ∨ (isIncomplete (completionList r) = false
                 ∧ Client.id c = k
                 ∧ items = ddc_items c (completionList r))) as [Hold | Hput].
      { destruct (isIncomplete (completionList r)); [by left |].
        apply lookup_insert_Some in Hk as [(? & ?) | (_ & ?)];
          [by right | by left]. }
      * destruct (Hentry k items Hold)
          as [? | (j & c' & l & Hresp & ?)]; [by left | right].
        exists j, c', l. split; [by eapply responded_step | done].
      * right. exists i, c, (completionList r). by destruct Hput as (?&?&?).
Qed.

Lemma cycle_ok_await_all (order : list nat) :
  slots_ok (await_all order) ∧ cycle_ok (await_all order).
Proof.
  unfold await_all. apply foldl_settle_ind.
  - split; [apply slots_ok_start | apply cycle_ok_start].
  - intros st i st' [Hslots Hok] Hstep. split.
    + by eapply slots_ok_step.
    + by eapply cycle_ok_step.
Qed.

(** *** Distinct client ids *)

Section DistinctIds.

Hypothesis distinct : NoDup (Client.id <$> clients).

Lemma same_id_same_client (i j : nat) (c c' : Client.t) :
  clients !! i = Some c → clients !! j = Some c' →
  Client.id c = Client.id c' → i = j ∧ c = c'.
Proof.
  intros Hc Hc' Hid.
  assert (i = j) as ->.
  { eapply (NoDup_lookup _ i j (Client.id c) distinct);
      rewrite list_lookup_fmap; [by rewrite Hc | by rewrite Hc', Hid]. }
  split; [done | congruence].
Qed.

Lemma writes_ok_step (st st' : Cycle) (i : nat) :
  writes_ok st → settles st i st' → writes_ok st'.
Proof.
  intros Hwrites Hstep j c l Hresp Hl.
  destruct (responded_step_inv _ _ _ _ _ _ Hstep Hresp)
    as [Hold | (-> & _ & _ & ->)].
  - pose proof (Hwrites _ _ _ Hold Hl) as Hcached.
    destruct Hold as (Hc & _ & [items Hslot] & _).
    destruct Hstep as [| | | c' r _ Hc' Hpending _]; cbn; try done.
    destruct (isIncomplete (completionList r)); [done |].
    rewrite lookup_insert_ne; [done |].
    intros Hid. destruct (same_id_same_client _ _ _ _ Hc' Hc Hid) as [-> _].
    congruence.
  - rewrite Hl. apply lookup_insert_eq.
Qed.

Lemma writes_ok_await_all (order : list nat) : writes_ok (await_all order).
Proof.
  unfold await_all. apply foldl_settle_ind.
  - intros i c l Hresp. by apply responded_start in Hresp.
  - intros st i st' Hst Hstep. by eapply writes_ok_step.
Qed.

(** An incomplete response leaves its client out of the cache. *)
Lemma incomplete_not_cached (order : list nat) (i : nat) (c : Client.t)
    (l : CompletionList) :
  responded (await_all order) i c l → isIncomplete l = true →
  cycle_cache (await_all order) !! Client.id c = None.
Proof.
  intros Hresp Hl.
  destruct (cycle_ok_await_all order) as [_ [_ _ _ _ Hentry]].
  destruct (cycle_cache (await_all order) !! Client.id c)
    as [items|] eqn:Hk; [exfalso | done].
  destruct Hresp as (Hc & Hfresh & _ & r & Hreq & Hr).
  destruct (Hentry _ _ Hk)
    as [? | (j & c' & l' & (Hc' & _ & _ & r' & Hreq' & Hr') & Hid & Hl' & _)];
    [congruence |].
  destruct (same_id_same_client _ _ _ _ Hc' Hc Hid) as [-> ->].
  congruence.
Qed.

End DistinctIds.

(** *** The result of a cycle *)

Local Abbreviation gathered :=
  (gather_clients toDdcItem host args clients cache).

Lemma request_throws (client : Client.t) (e : Exn) :
  request client = inl e
  ↔ lsp_request host (Client.id client) (request_params host args client)
      (sourceOptions_timeout args) = Thrown e.
Proof.
  unfold request.
  destruct (lsp_request _ _ _ _); split; congruence.
Qed.

Lemma request_deadline (client : Client.t) :
  lsp_request host (Client.id client) (request_params host args client)
    (sourceOptions_timeout args) = DeadlineExceeded →
  request client = inr None.
Proof. intros Hreply. unfold request. by rewrite Hreply. Qed.

(** When no promise is rejected, the promises hold the callbacks' values,
    client by client. *)
Lemma await_all_values (order : list nat) :
  rejected (await_all order) = None →
  default [] <$> fulfilled (await_all order) = callback_items <$> clients.
Proof.
  intros Hnone. destruct (cycle_ok_await_all order) as [[Hlen _] [Hful _ _ _ _]].
  apply list_eq. intros i. rewrite !list_lookup_fmap.
  destruct (clients !! i) as [c|] eqn:Hc; cbn.
  - destruct (await_all_fulfils order i c Hc Hnone) as [items Hslot].
    rewrite Hslot. cbn. f_equal. by eapply Hful.
  - rewrite lookup_ge_None_2; [done |].
    rewrite Hlen. by apply lookup_ge_None_1.
Qed.

(** A rejection empties the result and is the only message printed. *)
Lemma gather_clients_throw (order : list nat) (i : nat) (c : Client.t)
    (e : Exn) :
  clients !! i = Some c → cache !! Client.id c = None →
  request c = inl e →
  gathered_items (gathered order) = []
  ∧ ∃ e', printed (gathered order) = [e']
          ∧ ∃ j c', clients !! j = Some c'
                    ∧ cache !! Client.id c' = None
                    ∧ request c' = inl e'.
Proof.
  intros Hc Hfresh Hreq. unfold gather_clients. cbn.
  destruct (cycle_ok_await_all order) as [_ [Hful Hrej _ _ _]].
  destruct (rejected (await_all order)) as [e'|] eqn:Hrejected.
  - split; [done |]. exists e'. split; [done |]. by apply Hrej.
  - destruct (await_all_fulfils order i c Hc Hrejected) as [items Hslot].
    destruct (Hful _ _ _ Hc Hslot) as [_ Hok]. by destruct (Hok Hfresh e).
Qed.

(** Every message printed is the exception of a request. *)
Lemma gather_clients_printed (order : list nat) (e : Exn) :
  e ∈ printed (gathered order) →
  ∃ j c, clients !! j = Some c ∧ cache !! Client.id c = None
         ∧ request c = inl e.
Proof.
  unfold gather_clients. cbn.
  destruct (cycle_ok_await_all order) as [_ [_ Hrej _ _ _]].
  destruct (rejected (await_all order)) as [e'|] eqn:Hrejected.
  - intros ->%list_elem_of_singleton. by apply Hrej.
  - by intros ?%elem_of_nil.
Qed.

(** Without an exception, nothing is printed and the result is the
    callbacks' values in the order of the clients. *)
Lemma gather_clients_quiet (order : list nat) :
  (∀ j c e, clients !! j = Some c → cache !! Client.id c = None →
            request c ≠ inl e) →
  printed (gathered order) = []
  ∧ gathered_items (gathered order)
    = List.concat (callback_items <$> clients).
Proof.
  intros Hquiet. unfold gather_clients. cbn.
  destruct (cycle_ok_await_all order) as [_ [_ Hrej _ _ _]].
  destruct (rejected (await_all order)) as [e'|] eqn:Hrejected.
  - destruct (Hrej e' eq_refl) as (j & c & Hc & Hfresh & Hreq).
    by destruct (Hquiet j c e' Hc Hfresh).
  - split; [done |]. by rewrite await_all_values.
Qed.


End GatherFacts.

(** ** The claims on [gather] *)

Section GatherClaims.

Variable toDdcItem :
  CompletionItem.t → LspItem → option ItemDefaults → option Item.
Variable host : GatherHost.
Variable args : GatherArguments.
Variable cache : gmap Z (list Item).
Variable order : list nat.

Local Abbreviation reply client :=
  (lsp_request host (Client.id client) (request_params host args client)
     (sourceOptions_timeout args)).
Local Abbreviation cycle :=
  (await_all toDdcItem host args (get_clients host) cache order).
Local Abbreviation gathered := (gather toDdcItem host args cache order).
Local Abbreviation responded :=
  (responded host args (get_clients host) cache).

Lemma last_typed_snoc (s : string) (c : ascii) :
  last_typed (s +:+ String c "") = String c "".
Proof.
  induction s as [|a s IH]; [done |].
  destruct s as [|b s]; [done |]. exact IH.
Qed.

Lemma string_snoc (s : string) :
  s = "" ∨ ∃ s' c, s = s' +:+ String c "".
Proof.
  induction s as [|a s [-> | (s' & c & ->)]]; [by left | right; by exists "", a |].
  right. by exists (String a s'), c.
Qed.

Lemma slice_last_typed (input : string) :
  Js.slice input (-1) None = last_typed input.
Proof.
  destruct (string_snoc input) as [-> | (s & c & ->)]; [done |].
  by rewrite slice_last, last_typed_snoc.
Qed.

(** C1, amended. When the request of some provider fails with an error
    other than a timeout, the cycle returns no items at all, those of the
    cache and of the other providers included, and reports one failure on
    the error channel: the one that rejected the cycle, thrown by the
    request of some provider of the cycle. *)
Theorem gather_failure_empties_cycle (i : nat) (client : Client.t)
    (e : Exn) :
  get_clients host !! i = Some client →
  cache !! Client.id client = None →
  reply client = Thrown e →
  gathered_items gathered = []
  ∧ ∃ e', printed gathered = [e']
          ∧ ∃ j c, get_clients host !! j = Some c
                   ∧ cache !! Client.id c = None
                   ∧ reply c = Thrown e'.
Proof.
  intros Hclient Hfresh Hreply. apply request_throws in Hreply.
  destruct (gather_clients_throw toDdcItem host args (get_clients host)
              cache order i client e Hclient Hfresh Hreply)
    as (Hitems & e' & Hprinted & j & c & Hc & Hc_fresh & Hthrown).
  split; [exact Hitems |]. exists e'. split; [exact Hprinted |].
  exists j, c. split_and!; try done. by apply request_throws.
Qed.

(** C7. A request that exceeds the timeout is not an error: no message
    printed in the cycle comes from it, and when no request of the cycle
    throws, nothing is printed and the cycle returns the items of the
    other providers, in their order, the timed-out provider counting for
    none. *)
Theorem gather_timeout_is_silent (i : nat) (client : Client.t) :
  get_clients host !! i = Some client →
  cache !! Client.id client = None →
  reply client = DeadlineExceeded →
  callback_items toDdcItem host args cache client = []
  ∧ (∀ e, e ∈ printed gathered →
          ∃ j c, j ≠ i ∧ get_clients host !! j = Some c
                 ∧ cache !! Client.id c = None ∧ reply c = Thrown e)
  ∧ ((∀ j c e, get_clients host !! j = Some c →
               cache !! Client.id c = None → reply c ≠ Thrown e) →
     printed gathered = []
     ∧ gathered_items gathered
       = List.concat (callback_items toDdcItem host args cache
                        <$> take i (get_clients host))
         ++ List.concat (callback_items toDdcItem host args cache
                           <$> drop (S i) (get_clients host))).
Proof.
  intros Hclient Hfresh Hreply.
  assert (callback_items toDdcItem host args cache client = []) as Hnone.
  { unfold callback_items. by rewrite Hfresh, (request_deadline _ _ _ Hreply). }
  split_and!; [exact Hnone | |].
  - intros e He.
    destruct (gather_clients_printed toDdcItem host args (get_clients host)
                cache order e He) as (j & c & Hc & Hc_fresh & Hthrown).
    apply request_throws in Hthrown. exists j, c. split_and!; try done.
    intros ->. congruence.
  - intros Hquiet.
    destruct (gather_clients_quiet toDdcItem host args (get_clients host)
                cache order) as [Hprinted Hitems].
    { intros j c e Hc Hc_fresh Hthrown%request_throws.
      by eapply Hquiet. }
    split; [exact Hprinted |]. unfold gather. rewrite Hitems.
    rewrite <- (take_drop_middle _ _ _ Hclient) at 1.
    rewrite fmap_app, fmap_cons, concat_app. cbn [List.concat].
    by rewrite Hnone.
Qed.

End GatherClaims.

(** C1 as stated fails: provider 1 throws, provider 2 answers with a
    candidate, and the cycle returns no item. *)
Lemma gather_failure_discards_siblings :
  ¬ failures_isolated Sample.to_item
      (Sample.lsp (Thrown "boom") (Sample.complete ["count"]))
      (Sample.gather_args "print.c") ∅ [].
Proof. intros [_ Hitems]. vm_compute in Hitems. discriminate Hitems. Qed.

Lemma gather_failure_empties_cycle_witness :
  gathered_items (Sample.run (Thrown "boom") (Sample.complete ["count"]) [])
  = [].
Proof.
  exact (proj1 (gather_failure_empties_cycle Sample.to_item
                  (Sample.lsp (Thrown "boom") (Sample.complete ["count"]))
                  (Sample.gather_args "print.c") ∅ [] 0%nat
                  (Sample.client 1) "boom" eq_refl (lookup_empty _)
                  eq_refl)).
Defined.

Lemma gather_timeout_is_silent_witness :
  printed (Sample.run DeadlineExceeded (Sample.complete ["count"]) [1%nat])
  = []
  ∧ word <$> gathered_items
               (Sample.run DeadlineExceeded (Sample.complete ["count"])
                  [1%nat])
    = ["count"].
Proof.
  destruct (gather_timeout_is_silent Sample.to_item
              (Sample.lsp DeadlineExceeded (Sample.complete ["count"]))
              (Sample.gather_args "print.c") ∅ [1%nat] 0%nat
              (Sample.client 1) eq_refl (lookup_empty _) eq_refl)
    as (_ & _ & Hquiet).
  destruct Hquiet as [Hprinted Hitems].
  { intros j c e _ _. cbn. destruct (Client.id c =? 1); discriminate. }
  split; [exact Hprinted |]. unfold Sample.run. rewrite Hitems. reflexivity.
Defined.

(** * Further properties *)

(** ** Lines *)

Section LineFacts.

Lemma free_of_app (c : ascii) (s t : string) :
  free_of c (s +:+ t) = free_of c s && free_of c t.
Proof.
  induction s as [|a s IH]; [done |].
  change (String a s +:+ t) with (String a (s +:+ t)).
  cbn [free_of]. rewrite IH. by rewrite andb_assoc.
Qed.

Lemma single_line_app (s t : string) :
  single_line (s +:+ t) = single_line s && single_line t.
Proof.
  unfold single_line. rewrite !free_of_app.
  destruct (free_of Js.CR s), (free_of Js.LF s), (free_of Js.CR t); done.
Qed.

(** Normalization leaves no carriage return. *)
Lemma normalize_eol_free_cr_bounded (n : nat) :
  ∀ s, (String.length s ≤ n)%nat → free_of Js.CR (Js.normalize_eol s) = true.
Proof.
  induction n as [|n IH]; intros s Hlen.
  - destruct s; [done | simpl in Hlen; lia].
  - destruct s as [|c s]; [done |]. simpl in Hlen. simpl.
    destruct (Ascii.eqb c Js.CR) eqn:Hc.
    + cbn [free_of]. change (Ascii.eqb Js.LF Js.CR) with false. cbn [negb andb].
      destruct s as [|c' s]; [done |].
      destruct (Ascii.eqb c' Js.LF).
      * apply IH. simpl in Hlen. lia.
      * apply IH. simpl in *. lia.
    + cbn [free_of]. rewrite Hc. cbn [negb andb]. apply IH. lia.
Qed.

Lemma normalize_eol_free_cr (s : string) :
  free_of Js.CR (Js.normalize_eol s) = true.
Proof. by apply (normalize_eol_free_cr_bounded (String.length s)). Qed.

(** A text without carriage return is already normalized. *)
Lemma normalize_eol_id (s : string) :
  free_of Js.CR s = true → Js.normalize_eol s = s.
Proof.
  induction s as [|c s IH]; [done |]. cbn [free_of].
  intros [Hc Hs]%andb_true_iff. apply negb_true_iff in Hc.
  simpl. rewrite Hc. by rewrite IH.
Qed.

Lemma split_lf_free_lf (s : string) :
  Forall (λ l, free_of Js.LF l = true) (Js.split_lf s).
Proof.
  induction s as [|c s IH]; simpl; [by repeat constructor |].
  destruct (Ascii.eqb c Js.LF) eqn:Hc; [by constructor |].
  destruct (Js.split_lf s) as [|l ls]; [by repeat constructor; simpl; rewrite Hc |].
  apply Forall_cons in IH as [Hl Hls]. constructor; [|done].
  cbn [free_of]. by rewrite Hc, Hl.
Qed.

Lemma split_lf_free_of (c : ascii) (s : string) :
  free_of c s = true →
  Forall (λ l, free_of c l = true) (Js.split_lf s).
Proof.
  induction s as [|a s IH]; simpl; [by repeat constructor |].
  intros [Ha Hs]%andb_true_iff. specialize (IH Hs).
  destruct (Ascii.eqb a Js.LF); [by constructor |].
  destruct (Js.split_lf s) as [|l ls].
  - repeat constructor. cbn [free_of]. by rewrite Ha.
  - apply Forall_cons in IH as [Hl Hls]. constructor; [|done].
    cbn [free_of]. by rewrite Ha, Hl.
Qed.

Lemma join_lf_cons_char (c : ascii) (l : string) (ls : list string) :
  join_lf (String c l :: ls) = String c (join_lf (l :: ls)).
Proof. by destruct ls. Qed.

Lemma join_split_lf (s : string) : join_lf (Js.split_lf s) = s.
Proof.
  induction s as [|c s IH]; [done |]. simpl.
  destruct (Ascii.eqb_spec c Js.LF) as [-> | _].
  - pose proof (split_lf_nonempty s) as Hne.
    destruct (Js.split_lf s) as [|l ls]; [done |].
    change (join_lf ("" :: l :: ls)) with (String Js.LF (join_lf (l :: ls))).
    by rewrite IH.
  - pose proof (split_lf_nonempty s) as Hne.
    destruct (Js.split_lf s) as [|l ls]; [done |].
    by rewrite join_lf_cons_char, IH.
Qed.

Lemma split_lf_single (l : string) :
  free_of Js.LF l = true → Js.split_lf l = [l].
Proof.
  induction l as [|c l IH]; [done |]. cbn [free_of].
  intros [Hc Hl]%andb_true_iff. apply negb_true_iff in Hc.
  simpl. rewrite Hc. by rewrite (IH Hl).
Qed.

Lemma split_join_lf (lines : list string) :
  lines ≠ [] → Forall (λ l, free_of Js.LF l = true) lines →
  Js.split_lf (join_lf lines) = lines.
Proof.
  induction lines as [|l ls IH]; [done |]. intros _ Hfree.
  apply Forall_cons in Hfree as [Hl Hls].
  destruct ls as [|l' ls]; [by apply split_lf_single |].
  change (join_lf (l :: l' :: ls))
    with (l +:+ String Js.LF (join_lf (l' :: ls))).
  rewrite split_lf_app, (split_lf_single l Hl), IH; done.
Qed.

Lemma join_lf_free_of (c : ascii) (lines : list string) :
  c ≠ Js.LF → Forall (λ l, free_of c l = true) lines →
  free_of c (join_lf lines) = true.
Proof.
  intros Hc. induction lines as [|l ls IH]; [done |].
  intros [Hl Hls]%Forall_cons. destruct ls as [|l' ls]; [done |].
  change (join_lf (l :: l' :: ls))
    with (l +:+ String Js.LF (join_lf (l' :: ls))).
  rewrite free_of_app, Hl. cbn [free_of andb].
  rewrite (IH Hls), andb_true_r. apply negb_true_iff.
  apply Ascii.eqb_neq. congruence.
Qed.

(** X1. No line that [splitLines] returns contains a carriage return or a
    line feed, whatever the line endings of the text. *)
Theorem splitLines_single_lines (str : string) :
  Forall (λ l, single_line l = true) (splitLines str).
Proof.
  unfold splitLines, single_line.
  pose proof (split_lf_free_lf (Js.normalize_eol str)) as Hlf.
  pose proof (split_lf_free_of Js.CR _ (normalize_eol_free_cr str)) as Hcr.
  induction (Js.split_lf (Js.normalize_eol str)) as [|l ls IH];
    [constructor |].
  apply Forall_cons in Hlf as [Hl Hls]. apply Forall_cons in Hcr as [Hl' Hls'].
  constructor; [by rewrite Hl, Hl' | by apply IH].
Qed.

(** X2. Joining the lines of [splitLines] with line feeds gives the text
    with its line endings normalized; for a text without carriage return
    it gives the text back. *)
Theorem splitLines_join (str : string) :
  join_lf (splitLines str) = Js.normalize_eol str
  ∧ (free_of Js.CR str = true → join_lf (splitLines str) = str).
Proof.
  unfold splitLines. rewrite join_split_lf. split; [done |].
  apply normalize_eol_id.
Qed.

(** X3. Splitting the join of a non-empty list of single lines gives the
    list back: [splitLines] is the inverse of [join("\n")] on such lists. *)
Theorem splitLines_of_join (lines : list string) :
  lines ≠ [] → Forall (λ l, single_line l = true) lines →
  splitLines (join_lf lines) = lines.
Proof.
  intros Hne Hlines. unfold splitLines.
  assert (Forall (λ l, free_of Js.CR l = true) lines
          ∧ Forall (λ l, free_of Js.LF l = true) lines) as [Hcr Hlf].
  { split; eapply Forall_impl; try exact Hlines;
      intros l [? ?]%andb_true_iff; done. }
  rewrite normalize_eol_id.
  - by apply split_join_lf.
  - apply join_lf_free_of; [|done]. intros Heq. discriminate Heq.
Qed.

End LineFacts.

Lemma splitLines_of_join_witness :
  splitLines (join_lf ["import a"; ""; "let x"]) = ["import a"; ""; "let x"].
Proof.
  apply splitLines_of_join; [discriminate |].
  repeat constructor.
Defined.

(** ** Confirmation *)

Section ConfirmMore.

Variable JSON_parse : string → option LspItem.
Variable getInsertText : LspItem → string.
Variable isReplace : LspItem → ConfirmBehavior → Z → Z → bool.
Variable host : Host.

Local Abbreviation onCompleteDone :=
  (onCompleteDone JSON_parse getInsertText isReplace host).
Local Abbreviation needs_confirm := (needs_confirm getInsertText isReplace).
Local Abbreviation getPreviewer :=
  (getPreviewer JSON_parse getInsertText host).

Lemma length_append (s t : string) :
  String.length (s +:+ t) = (String.length s + String.length t)%nat.
Proof. induction s as [|a s IH]; [done |]. simpl. by rewrite IH. Qed.

Lemma substring_prefix (mid post : string) :
  substring 0 (String.length mid) (mid +:+ post) = mid.
Proof.
  induction mid as [|c mid IH]; [destruct post; reflexivity |].
  simpl. by rewrite IH.
Qed.

Lemma substring_middle (pre mid post : string) :
  substring (String.length pre) (String.length mid) (pre +:+ mid +:+ post)
  = mid.
Proof.
  induction pre as [|c pre IH]; [exact (substring_prefix mid post) | exact IH].
Qed.

Lemma slice_middle (pre mid post : string) :
  Js.slice (pre +:+ mid +:+ post) (Z.of_nat (String.length pre))
    (Some (Z.of_nat (String.length pre) + Z.of_nat (String.length mid)))
  = mid.
Proof.
  unfold Js.slice, Js.relative_index. rewrite !length_append.
  set (p := String.length pre). set (m := String.length mid).
  set (q := String.length post).
  destruct (Z.ltb_spec (Z.of_nat p) 0) as [? | _]; [lia |].
  destruct (Z.ltb_spec (Z.of_nat p + Z.of_nat m) 0) as [? | _]; [lia |].
  replace (Z.to_nat (Z.min (Z.of_nat p) (Z.of_nat (p + (m + q)))))
    with p by lia.
  replace (Z.to_nat (Z.max _ 0)) with m by lia.
  apply substring_middle.
Qed.

(** X4. When the line reads [pre ++ mid ++ post], the item's suggestion
    started after [pre] and the cursor stands after [mid], the text the
    guard of [onCompleteDone] compares with the accepted word is [mid]:
    the guard passes when exactly the word was inserted, and fails when
    anything else stands there. *)
Theorem inserted_text_middle (userData : UserData) (pre mid post : string) :
  LineContext.text (line_context host) = pre +:+ mid +:+ post →
  suggestCharacter userData = Z.of_nat (String.length pre) →
  LineContext.character (line_context host)
  = Z.of_nat (String.length pre) + Z.of_nat (String.length mid) →
  inserted_text host userData = mid.
Proof.
  intros Htext Hstart Hcursor. unfold inserted_text.
  rewrite Htext, Hstart, Hcursor. apply slice_middle.
Qed.

Lemma onCompleteDone_unparsed (userData : UserData) (sourceParams : Params) :
  inserted_text host userData = completed_item_word host →
  JSON_parse (lspitem userData) = None →
  onCompleteDone userData sourceParams
  = ([EvalCompletedItemWord; LineContextCreate], inl "SyntaxError").
Proof.
  intros Heq Hparse. unfold onCompleteDone, inserted_text in *. cbn.
  rewrite Heq, String.eqb_refl. cbn.
  unfold parse_lspitem. by rewrite Hparse.
Qed.

Lemma needs_confirm_true (lspItem : LspItem) (itemWord : string)
    (userData : UserData) (sourceParams : Params) :
  needs_confirm lspItem itemWord userData sourceParams = true
  ↔ getInsertText lspItem ≠ itemWord
    ∨ (enableAdditionalTextEdit sourceParams = true
       ∧ is_Some (additionalTextEdits lspItem))
    ∨ isReplace lspItem (confirmBehavior sourceParams)
        (suggestCharacter userData) (requestCharacter userData) = true.
Proof.
  unfold needs_confirm. rewrite !orb_true_iff, andb_true_iff, negb_true_iff.
  rewrite bool_decide_eq_true.
  destruct (String.eqb_spec (getInsertText lspItem) itemWord);
    intuition congruence.
Qed.

(** X5. Whatever its arguments and the host's answers, the calls of
    [onCompleteDone] that change the editor are either none or, in this
    order, the undo break, one [CompletionItem.confirm] and
    [ddc#skip_next_complete]; the second case needs a passed guard and a
    payload that parses, and confirms the candidate [confirmed_item]. *)
Theorem onCompleteDone_mutations (userData : UserData)
    (sourceParams : Params) :
  List.filter mutates (calls (onCompleteDone userData sourceParams)) = []
  ∨ ∃ unresolvedItem,
      inserted_text host userData = completed_item_word host
      ∧ JSON_parse (lspitem userData) = Some unresolvedItem
      ∧ List.filter mutates (calls (onCompleteDone userData sourceParams))
        = [CmdSetUndoPoint;
           CompletionItemConfirm
             (confirmed_item host userData sourceParams unresolvedItem)
             unresolvedItem userData sourceParams;
           CallSkipNextComplete].
Proof.
  destruct (String.eqb_spec (inserted_text host userData)
              (completed_item_word host)) as [Heq | Hne].
  - destruct (JSON_parse (lspitem userData)) as [u|] eqn:Hparse.
    + rewrite (onCompleteDone_fresh _ _ _ _ _ _ _ Heq Hparse).
      cbn [calls fst].
      destruct (needs_confirm _ _ userData sourceParams);
        destruct (enableResolveItem sourceParams) eqn:Hresolve; cbn;
        [right; exists u; split_and!; done .. | by left | by left].
    + rewrite (onCompleteDone_unparsed _ _ Heq Hparse). by left.
  - rewrite (onCompleteDone_stale _ _ _ _ _ _ Hne). by left.
Qed.

(** X6. Once the guard has passed and the payload is parsed, the
    corrective path runs exactly when the candidate's insert text is not
    the accepted word, or [additionalTextEdits] is set while
    [enableAdditionalTextEdit] is on, or [isReplace] answers true: each of
    the three alone is enough. *)
Theorem onCompleteDone_confirms_iff (userData : UserData)
    (sourceParams : Params) (unresolvedItem : LspItem) :
  inserted_text host userData = completed_item_word host →
  JSON_parse (lspitem userData) = Some unresolvedItem →
  let lspItem := confirmed_item host userData sourceParams unresolvedItem in
  CompletionItemConfirm lspItem unresolvedItem userData sourceParams
    ∈ calls (onCompleteDone userData sourceParams)
  ↔ getInsertText lspItem ≠ completed_item_word host
    ∨ (enableAdditionalTextEdit sourceParams = true
       ∧ is_Some (additionalTextEdits lspItem))
    ∨ isReplace lspItem (confirmBehavior sourceParams)
        (suggestCharacter userData) (requestCharacter userData) = true.
Proof.
  intros Heq Hparse lspItem.
  rewrite (onCompleteDone_fresh _ _ _ _ _ _ _ Heq Hparse). fold lspItem.
  rewrite <- needs_confirm_true. cbn [calls fst]. rewrite !elem_of_app.
  destruct (needs_confirm lspItem _ userData sourceParams);
    destruct (enableResolveItem sourceParams);
    rewrite ?elem_of_cons, ?elem_of_nil; intuition congruence.
Qed.

(** X7. A stored payload that [JSON.parse] rejects makes both consumers
    fail with the parser's exception: [onCompleteDone], once its guard has
    passed, after its two reads and before any resolve request or change
    of the editor; [getPreviewer] before any host call. *)
Theorem unparsable_payload_throws (userData : UserData)
    (sourceParams : Params) (item : Item) :
  JSON_parse (lspitem userData) = None →
  (inserted_text host userData = completed_item_word host →
   onCompleteDone userData sourceParams
   = ([EvalCompletedItemWord; LineContextCreate], inl "SyntaxError"))
  ∧ (user_data item = Some userData →
     getPreviewer item = ([], inl "SyntaxError")).
Proof.
  intros Hparse. split.
  - intros Heq. by apply onCompleteDone_unparsed.
  - intros Hdata. unfold getPreviewer, parse_lspitem.
    by rewrite Hdata, Hparse.
Qed.

(** X8. With the parameters that [Source.params()] returns,
    [onCompleteDone] never sends a resolve request, whatever the item and
    the buffer. *)
Theorem onCompleteDone_default_params_no_resolve (userData : UserData)
    (id : Z) (lspItem : LspItem) :
  LuaResolve id lspItem ∉ calls (onCompleteDone userData params).
Proof.
  destruct (String.eqb_spec (inserted_text host userData)
              (completed_item_word host)) as [Heq | Hne].
  - destruct (JSON_parse (lspitem userData)) as [u|] eqn:Hparse.
    + rewrite (onCompleteDone_fresh _ _ _ _ _ _ _ Heq Hparse).
      cbn [calls fst enableResolveItem params].
      destruct (needs_confirm _ _ userData params); cbn;
        rewrite ?not_elem_of_cons; split_and!;
        try discriminate; apply not_elem_of_nil.
    + rewrite (onCompleteDone_unparsed _ _ Heq Hparse). cbn.
      rewrite !not_elem_of_cons. split_and!;
        try discriminate; apply not_elem_of_nil.
  - rewrite (onCompleteDone_stale _ _ _ _ _ _ Hne). cbn.
    rewrite !not_elem_of_cons. split_and!;
      try discriminate; apply not_elem_of_nil.
Qed.

(** ** Preview *)

(** Every call of a preview whose payload parses. *)
Lemma getPreviewer_parsed (item : Item) (userData : UserData)
    (unresolvedItem : LspItem) :
  user_data item = Some userData →
  JSON_parse (lspitem userData) = Some unresolvedItem →
  let lspItem := default unresolvedItem
                   (lsp_resolve host (clientId userData) unresolvedItem) in
  getPreviewer item
  = if bool_decide (kind lspItem = Some 15)
    then ([LuaResolve (clientId userData) unresolvedItem; FiletypeGet;
           LuaParseSnippet (getInsertText lspItem)],
          inr (PreviewMarkdown
                 (("```" +:+ filetype host)
                  :: splitLines (parse_snippet host (getInsertText lspItem))
                  ++ ["```"])))
    else ([LuaResolve (clientId userData) unresolvedItem; FiletypeGet],
          inr (PreviewMarkdown
                 (preview_contents (filetype host) lspItem unresolvedItem))).
Proof.
  intros Hdata Hparse lspItem. unfold getPreviewer, parse_lspitem.
  rewrite Hdata, Hparse. cbn -[preview_contents]. fold lspItem.
  by destruct (bool_decide (kind lspItem = Some 15)).
Qed.

(** X9. [getPreviewer] never makes a call that changes the editor; and
    for an item whose payload parses it sends exactly one resolve request,
    for the stored candidate, whatever the item's [resolvable] flag (the
    method takes no parameter that could turn it off), then reads the
    filetype, and only a snippet adds a call, to the snippet parser. *)
Theorem getPreviewer_calls (item : Item) :
  read_only (calls (getPreviewer item))
  ∧ ∀ userData unresolvedItem,
      user_data item = Some userData →
      JSON_parse (lspitem userData) = Some unresolvedItem →
      ∃ rest,
        calls (getPreviewer item)
        = [LuaResolve (clientId userData) unresolvedItem; FiletypeGet]
          ++ rest
        ∧ ∀ c, c ∈ rest → ∃ body, c = LuaParseSnippet body.
Proof.
  split.
  - destruct (user_data item) as [ud|] eqn:Hdata;
      [|unfold getPreviewer; rewrite Hdata; constructor].
    destruct (JSON_parse (lspitem ud)) as [u|] eqn:Hparse.
    + rewrite (getPreviewer_parsed item ud u Hdata Hparse).
      destruct (bool_decide _); unfold read_only; cbn;
        by repeat constructor.
    + unfold getPreviewer, parse_lspitem. rewrite Hdata, Hparse.
      constructor.
  - intros ud u Hdata Hparse.
    rewrite (getPreviewer_parsed item ud u Hdata Hparse).
    destruct (bool_decide _); cbn [calls fst].
    + eexists [_]. split; [reflexivity |].
      intros c ->%list_elem_of_singleton. by eexists.
    + exists []. split; [reflexivity |]. by intros c ?%elem_of_nil.
Qed.

Lemma splitLines_lines (str l : string) :
  l ∈ splitLines str → single_line l = true.
Proof.
  intros Hin. unfold splitLines, single_line in *.
  pose proof (split_lf_free_lf (Js.normalize_eol str)) as Hlf.
  pose proof (split_lf_free_of Js.CR _ (normalize_eol_free_cr str)) as Hcr.
  rewrite Forall_forall in Hlf, Hcr.
  by rewrite (Hlf l Hin), (Hcr l Hin).
Qed.

Lemma push_rule_lines (contents : list string) :
  Forall (λ l, single_line l = true) contents →
  Forall (λ l, single_line l = true) (push_rule contents).
Proof.
  intros Hlines. unfold push_rule. destruct (bool_decide _); [|done].
  apply Forall_app. split; [done | by repeat constructor].
Qed.

Lemma preview_contents_lines (ft : string) (lspItem unresolvedItem : LspItem) :
  single_line ft = true →
  (∀ source, tsc_source (data unresolvedItem) = Some source →
             single_line source = true) →
  Forall (λ l, single_line l = true)
    (preview_contents ft lspItem unresolvedItem).
Proof.
  intros Hft Hsource. unfold preview_contents.
  assert (∀ str, Forall (λ l, single_line l = true) (splitLines str))
    as Hsplit.
  { intros str. apply Forall_forall. intros l. apply splitLines_lines. }
  set (detail_part := match detail lspItem with
                      | Some d => _ | None => _ end).
  assert (Forall (λ l, single_line l = true) detail_part) as Hdetail.
  { subst detail_part. destruct (detail lspItem) as [d|]; [|constructor].
    destruct (truthy (Some d)); [|constructor]. cbn [app].
    constructor; [by rewrite single_line_app, Hft |].
    apply Forall_app. split; [apply Hsplit | by repeat constructor]. }
  set (import_part := match tsc_source (data unresolvedItem) with
                      | Some s => _ | None => _ end).
  assert (Forall (λ l, single_line l = true) import_part) as Himport.
  { subst import_part.
    destruct (tsc_source (data unresolvedItem)) as [source|]; [|done].
    apply Forall_app. split; [by apply push_rule_lines |].
    repeat constructor. rewrite !single_line_app, (Hsource source eq_refl).
    reflexivity. }
  destruct (documentation lspItem) as [doc|]; [|done].
  destruct (has_documentation (Some doc)); [|done].
  apply Forall_app. split; [by apply push_rule_lines |].
  destruct doc as [text | [] value]; apply Hsplit.
Qed.

(** X10. The lines of the markdown document [getPreviewer] returns never
    contain a carriage return or a line feed, for a snippet as for the
    other kinds, as long as the filetype and the import source named by
    the payload do not. *)
Theorem getPreviewer_single_lines (item : Item) (contents : list string) :
  single_line (filetype host) = true →
  (∀ userData unresolvedItem source,
     user_data item = Some userData →
     JSON_parse (lspitem userData) = Some unresolvedItem →
     tsc_source (data unresolvedItem) = Some source →
     single_line source = true) →
  outcome (getPreviewer item) = inr (PreviewMarkdown contents) →
  Forall (λ l, single_line l = true) contents.
Proof.
  intros Hft Hsource.
  destruct (user_data item) as [ud|] eqn:Hdata;
    [|unfold getPreviewer; rewrite Hdata; discriminate].
  destruct (JSON_parse (lspitem ud)) as [u|] eqn:Hparse;
    [|unfold getPreviewer, parse_lspitem; rewrite Hdata, Hparse;
      discriminate].
  rewrite (getPreviewer_parsed item ud u Hdata Hparse).
  destruct (bool_decide _); cbn [outcome snd]; intros [= <-].
  - constructor; [by rewrite single_line_app, Hft |].
    apply Forall_app. split; [|by repeat constructor].
    apply Forall_forall. intros l. apply splitLines_lines.
  - apply preview_contents_lines; [done |]. intros source Hs.
    by eapply Hsource.
Qed.

End ConfirmMore.

(** ** Gathering *)



Section GatherMore.

Variable toDdcItem :
  CompletionItem.t → LspItem → option ItemDefaults → option Item.
Variable host : GatherHost.
Variable args : GatherArguments.
Variable cache : gmap Z (list Item).

Local Abbreviation clients := (get_clients host).
Local Abbreviation reply client :=
  (lsp_request host (Client.id client) (request_params host args client)
     (sourceOptions_timeout args)).
Local Abbreviation request := (request host args).
Local Abbreviation ddc_items := (ddc_items toDdcItem host args).
Local Abbreviation cycle order :=
  (await_all toDdcItem host args (get_clients host) cache order).
Local Abbreviation gathered order :=
  (gather toDdcItem host args cache order).
Local Abbreviation responded :=
  (responded host args (get_clients host) cache).
Local Abbreviation answers := (answers host args (get_clients host) cache).
Local Abbreviation no_failure :=
  (no_failure host args (get_clients host) cache).

Lemma request_result (client : Client.t) (result : Result) :
  request client = inr (Some result) ↔ reply client = Responded (Some result).
Proof.
  unfold request. destruct (reply client); split; congruence.
Qed.

Lemma elem_of_concat {A} (x : A) (ls : list (list A)) :
  x ∈ List.concat ls ↔ ∃ l, l ∈ ls ∧ x ∈ l.
Proof.
  induction ls as [|l ls IH]; cbn.
  - split; [by intros ?%elem_of_nil | by intros (l & ?%elem_of_nil & _)].
  - rewrite elem_of_app, IH. split.
    + intros [Hx | (l' & Hl' & Hx)].
      * exists l. split; [by left | done].
      * exists l'. split; [by right | done].
    + intros (l' & [-> | Hl']%elem_of_cons & Hx); [by left | right].
      by exists l'.
Qed.

Lemma await_all_not_rejected (order : list nat) :
  no_failure → rejected (cycle order) = None.
Proof.
  intros Hquiet.
  destruct (cycle_ok_await_all toDdcItem host args clients cache order)
    as [_ [_ Hrej _ _ _]].
  destruct (rejected (cycle order)) as [e|] eqn:Hrejected; [exfalso | done].
  destruct (Hrej e eq_refl) as (i & c & Hc & Hfresh & Hthrown).
  apply request_throws in Hthrown. by eapply Hquiet.
Qed.

(** Without a failure, the responses processed are the answers of the
    uncached clients, whatever the order. *)
Lemma responded_answers (order : list nat) (i : nat) (c : Client.t)
    (l : CompletionList) :
  no_failure → responded (cycle order) i c l ↔ answers i c l.
Proof.
  intros Hquiet. split.
  - intros (Hc & Hfresh & _ & Hreq). by split_and!.
  - intros (Hc & Hfresh & Hreq). split_and!; try done.
    apply (await_all_fulfils toDdcItem host args clients cache order i c Hc).
    by apply await_all_not_rejected.
Qed.

(** The entries of the cache once the callbacks have run. *)
Lemma cycle_cache_entry (order : list nat) (k : Z) (items : list Item) :
  NoDup (Client.id <$> clients) →
  cycle_cache (cycle order) !! k = Some items
  ↔ cache !! k = Some items
    ∨ ∃ i c l, responded (cycle order) i c l ∧ Client.id c = k
               ∧ isIncomplete l = false ∧ items = ddc_items c l.
Proof.
  intros Hdistinct.
  destruct (cycle_ok_await_all toDdcItem host args clients cache order)
    as [_ [_ _ _ Hkept Hentry]].
  split; [apply Hentry |].
  intros [Hcached | (i & c & l & Hresp & <- & Hl & ->)].
  - by eapply lookup_weaken.
  - by eapply writes_ok_await_all.
Qed.

(** X12. With distinct client ids, a client without cache entry whose
    request times out, is answered with [null] or throws has no entry in
    the cache the cycle leaves: the next cycle asks it again. *)
Theorem gather_no_entry_without_result (order : list nat) (i : nat)
    (client : Client.t) :
  NoDup (Client.id <$> clients) →
  clients !! i = Some client →
  cache !! Client.id client = None →
  (∀ result, reply client ≠ Responded (Some result)) →
  item_cache (gathered order) !! Client.id client = None.
Proof.
  intros Hdistinct Hclient Hfresh Hnone.
  assert (cycle_cache (cycle order) !! Client.id client = None) as Hcycle.
  { destruct (cycle_cache (cycle order) !! Client.id client)
      as [items|] eqn:Hk; [exfalso | done].
    apply (cycle_cache_entry order _ _ Hdistinct) in Hk
      as [? | (j & c & l & (Hc & _ & _ & r & Hreq & _) & Hid & _)];
      [congruence |].
    destruct (same_id_same_client clients Hdistinct _ _ _ _ Hc Hclient Hid)
      as [_ ->].
    apply request_result in Hreq. by eapply Hnone. }
  unfold gather, gather_clients. cbn.
  by destruct (cycle_isIncomplete (cycle order)).
Qed.

(** X13. With distinct client ids, when no request throws, the result of
    a cycle (items, flag, cache left, messages, requests) does not depend
    on the order in which the responses arrive. *)
Theorem gather_order_independent (order order' : list nat) :
  NoDup (Client.id <$> clients) →
  no_failure →
  gathered order = gathered order'.
Proof.
  intros Hdistinct Hquiet.
  pose proof (await_all_not_rejected order Hquiet) as Hrej.
  pose proof (await_all_not_rejected order' Hquiet) as Hrej'.
  assert (cycle_isIncomplete (cycle order)
          = cycle_isIncomplete (cycle order')) as Hflag.
  { destruct (cycle_ok_await_all toDdcItem host args clients cache order)
      as [_ [_ _ Hflag _ _]].
    destruct (cycle_ok_await_all toDdcItem host args clients cache order')
      as [_ [_ _ Hflag' _ _]].
    apply eq_true_iff_eq. rewrite Hflag, Hflag'.
    split; intros (i & c & l & Hresp & Hl); exists i, c, l;
      (split; [|done]);
      apply responded_answers; try done;
      by eapply responded_answers. }
  assert (cycle_cache (cycle order) = cycle_cache (cycle order')) as Hcache.
  { apply map_eq. intros k. apply option_eq. intros items.
    rewrite !cycle_cache_entry by done.
    split; (intros [? | (i & c & l & Hresp & Hrest)]; [by left | right]);
      exists i, c, l; (split; [|done]);
      apply responded_answers; try done;
      by eapply responded_answers. }
  unfold gather, gather_clients. cbn.
  rewrite Hrej, Hrej', Hflag, Hcache.
  by rewrite !await_all_values.
Qed.

Lemma requests_none (order : list nat) :
  (∀ client, client ∈ clients → is_Some (cache !! Client.id client)) →
  requests (gathered order) = [].
Proof.
  unfold gather, gather_clients. cbn.
  induction clients as [|c cs IH]; [done |]. intros Hcached. cbn.
  destruct (Hcached c) as [items ->]; [by left |].
  apply IH. intros c' Hc'. apply Hcached. by right.
Qed.

(** X14. When every client has a cache entry (as when there is no client
    at all), the cycle sends no request and prints nothing, returns the
    cached items in the order of the clients with [isIncomplete = false],
    and leaves an empty cache. *)
Theorem gather_all_cached (order : list nat) :
  (∀ client, client ∈ clients → is_Some (cache !! Client.id client)) →
  requests (gathered order) = []
  ∧ printed (gathered order) = []
  ∧ gathered_items (gathered order)
    = List.concat ((λ c, default [] (cache !! Client.id c)) <$> clients)
  ∧ gathered_isIncomplete (gathered order) = false
  ∧ item_cache (gathered order) = ∅.
Proof.
  intros Hcached.
  assert (∀ i c, clients !! i = Some c → cache !! Client.id c ≠ None)
    as Hlookup.
  { intros i c Hc Hnone. destruct (Hcached c) as [items Hitems];
      [by eapply list_elem_of_lookup_2 | congruence]. }
  destruct (gather_clients_quiet toDdcItem host args clients cache order)
    as [Hprinted Hitems].
  { intros j c e Hc Hfresh. by destruct (Hlookup j c Hc). }
  assert (cycle_isIncomplete (cycle order) = false) as Hflag.
  { destruct (cycle_ok_await_all toDdcItem host args clients cache order)
      as [_ [_ _ Hflag _ _]].
    destruct (cycle_isIncomplete (cycle order)); [exfalso | done].
    destruct (proj1 Hflag eq_refl) as (i & c & l & (Hc & Hfresh & _) & _).
    by destruct (Hlookup i c Hc). }
  split_and!.
  - by apply requests_none.
  - exact Hprinted.
  - unfold gather. rewrite Hitems. f_equal. apply list_fmap_ext.
    intros i c Hc. unfold callback_items.
    destruct (cache !! Client.id c) eqn:Hk; [done |].
    by destruct (Hlookup i c Hc).
  - exact Hflag.
  - unfold gather, gather_clients. cbn. by rewrite Hflag.
Qed.


(** X16. Every item a cycle returns comes from a client of the cycle:
    from its cache entry, or from a candidate of its response in this
    cycle that [toDdcItem] kept. *)
Theorem gather_item_provenance (order : list nat) (item : Item) :
  item ∈ gathered_items (gathered order) →
  ∃ client,
    client ∈ clients
    ∧ ((∃ cached, cache !! Client.id client = Some cached ∧ item ∈ cached)
       ∨ ∃ result lspItem,
           cache !! Client.id client = None
           ∧ reply client = Responded (Some result)
           ∧ lspItem ∈ items (completionList result)
           ∧ toDdcItem (completionItem host args client) lspItem
               (itemDefaults (completionList result)) = Some item).
Proof.
  unfold gather, gather_clients. cbn.
  destruct (rejected (cycle order)) eqn:Hrej; [by intros ?%elem_of_nil |].
  rewrite await_all_values by done.
  intros (its & (client & -> & Hclient)%list_elem_of_fmap & Hitem)%elem_of_concat.
  exists client. split; [done |]. unfold callback_items in Hitem.
  destruct (cache !! Client.id client) as [cached|] eqn:Hk.
  - left. by exists cached.
  - right. destruct (request client) as [e | [result|]] eqn:Hreq;
      try by apply elem_of_nil in Hitem.
    apply list_elem_of_omap in Hitem as (lspItem & Hin & Hkept).
    exists result, lspItem. split_and!; try done.
    by apply request_result.
Qed.

(** X17. The context sent with a request is well formed: it names a
    trigger character exactly when its kind is the trigger-character
    kind, and that character is then the last one typed and one the
    client registered; a client that registered none never gets that
    kind. *)
Theorem request_context_well_formed (client : Client.t) :
  (triggerKind (request_context args client) = TriggerCharacter
   ↔ is_Some (triggerCharacter (request_context args client)))
  ∧ (∀ c, triggerCharacter (request_context args client) = Some c →
          c = last_typed (context_input args)
          ∧ c ∈ default [] (triggerCharacters (Client.provider client)))
  ∧ (triggerCharacters (Client.provider client) = None →
     triggerKind (request_context args client) ≠ TriggerCharacter).
Proof.
  unfold request_context. rewrite slice_last_typed.
  destruct (triggerCharacters (Client.provider client)) as [chars|]; cbn.
  - destruct (Js.includes chars _) eqn:Hinc; cbn.
    + split_and!; [by split | | done].
      intros c [= <-]. split; [done | by apply includes_elem_of].
    + split_and!; [|done | done].
      destruct (args_isIncomplete args); split;
        first [discriminate | by intros [? ?]].
  - split_and!; [| done |].
    + destruct (args_isIncomplete args); split;
        first [discriminate | by intros [? ?]].
    + by destruct (args_isIncomplete args).
Qed.

End GatherMore.

(** ** The guard at the bounds *)

Section GuardBounds.

Variable JSON_parse : string → option LspItem.
Variable getInsertText : LspItem → string.
Variable isReplace : LspItem → ConfirmBehavior → Z → Z → bool.
Variable host : Host.

Lemma substring_nothing (s : string) : ∀ n, substring n 0 s = "".
Proof.
  induction s as [|c s IH]; intros [|n]; try reflexivity. apply IH.
Qed.

Lemma slice_backwards (str : string) (start e : Z) :
  0 ≤ e → e ≤ start → Js.slice str start (Some e) = "".
Proof.
  intros He Hstart. unfold Js.slice, Js.relative_index.
  destruct (Z.ltb_spec start 0) as [? | _]; [lia |].
  destruct (Z.ltb_spec e 0) as [? | _]; [lia |].
  replace (Z.to_nat (Z.max _ 0)) with 0%nat by lia.
  apply substring_nothing.
Qed.

(** X18. When the cursor stands at or before the item's suggestion start
    (both offsets non-negative), the text the guard compares is empty, so
    for a non-empty accepted word [onCompleteDone] returns after its two
    reads without changing the editor and without an exception. *)
Theorem onCompleteDone_cursor_before_start (userData : UserData)
    (sourceParams : Params) :
  0 ≤ LineContext.character (line_context host) →
  LineContext.character (line_context host) ≤ suggestCharacter userData →
  completed_item_word host ≠ "" →
  inserted_text host userData = ""
  ∧ onCompleteDone JSON_parse getInsertText isReplace host userData
      sourceParams
    = ([EvalCompletedItemWord; LineContextCreate], inr tt).
Proof.
  intros Hcursor Hstart Hword.
  assert (inserted_text host userData = "") as Hempty.
  { unfold inserted_text. by apply slice_backwards. }
  split; [exact Hempty |]. apply onCompleteDone_stale.
  rewrite Hempty. congruence.
Qed.

End GuardBounds.

(** ** Runs on the sample data *)

Lemma sample_ids_distinct :
  NoDup (Client.id <$> [Sample.client 1; Sample.client 2]).
Proof.
  cbn. apply NoDup_cons. split; [|apply NoDup_singleton].
  intros Hin%list_elem_of_singleton. discriminate Hin.
Qed.


Lemma sample_no_failure :
  no_failure (Sample.lsp (Sample.complete ["console"])
                (Sample.incomplete ["count"]))
    (Sample.gather_args "print.c") [Sample.client 1; Sample.client 2] ∅.
Proof.
  intros i c e _ _. cbn. destruct (Client.id c =? 1); discriminate.
Qed.

Lemma inserted_text_middle_witness :
  inserted_text (Sample.editor "console") (Sample.user_data true)
  = "console".
Proof.
  exact (inserted_text_middle (Sample.editor "console")
           (Sample.user_data true) "print." "console" ""
           eq_refl eq_refl eq_refl).
Defined.

Lemma onCompleteDone_confirms_iff_witness :
  CompletionItemConfirm (Sample.lsp_item "console")
    (Sample.lsp_item "console") (Sample.user_data true) params
  ∈ calls (onCompleteDone Sample.parse Sample.insert_text
             (λ _ _ _ _, true) (Sample.editor "console")
             (Sample.user_data true) params).
Proof.
  apply (onCompleteDone_confirms_iff Sample.parse Sample.insert_text
           (λ _ _ _ _, true) (Sample.editor "console")
           (Sample.user_data true) params (Sample.lsp_item "console")
           eq_refl eq_refl).
  right. right. reflexivity.
Defined.

Lemma unparsable_payload_throws_witness :
  onCompleteDone (λ _, None) Sample.insert_text Sample.no_replace
    (Sample.editor "console") (Sample.user_data true) params
  = ([EvalCompletedItemWord; LineContextCreate], inl "SyntaxError").
Proof.
  apply (unparsable_payload_throws (λ _, None) Sample.insert_text
           Sample.no_replace (Sample.editor "console")
           (Sample.user_data true) params
           {| word := "console"; user_data := None |} eq_refl).
  reflexivity.
Defined.

Lemma getPreviewer_single_lines_witness :
  Forall (λ l, single_line l = true)
    ["```typescript"; "const console: Console"; "```";
     "---"; "import from `node:console`";
     "---"; "<text>"; "The console."; "</text>"].
Proof.
  apply (getPreviewer_single_lines Sample.parse_documented
           Sample.insert_text (Sample.editor "console")
           {| word := "console";
              user_data := Some (Sample.user_data true) |}).
  - reflexivity.
  - intros ud u source _ [= <-] [= <-]. reflexivity.
  - reflexivity.
Defined.

Lemma gather_no_entry_without_result_witness :
  item_cache (Sample.run DeadlineExceeded (Sample.incomplete ["count"]) [])
    !! 1 = None.
Proof.
  apply (gather_no_entry_without_result Sample.to_item
           (Sample.lsp DeadlineExceeded (Sample.incomplete ["count"]))
           (Sample.gather_args "print.c") ∅ [] 0%nat (Sample.client 1)
           sample_ids_distinct eq_refl (lookup_empty _)).
  intros result. cbn. discriminate.
Defined.

Lemma gather_order_independent_witness :
  Sample.run (Sample.complete ["console"]) (Sample.incomplete ["count"])
    [1%nat; 0%nat]
  = Sample.run (Sample.complete ["console"]) (Sample.incomplete ["count"])
      [].
Proof.
  exact (gather_order_independent Sample.to_item
           (Sample.lsp (Sample.complete ["console"])
              (Sample.incomplete ["count"]))
           (Sample.gather_args "print.c") ∅ [1%nat; 0%nat] []
           sample_ids_distinct sample_no_failure).
Defined.

Lemma sample_all_cached (first second : Reply) (client : Client.t) :
  client ∈ get_clients (Sample.lsp first second) →
  is_Some (Sample.warm_cache !! Client.id client).
Proof.
  cbn. intros [-> | ->%list_elem_of_singleton]%elem_of_cons;
    unfold Sample.warm_cache; cbn.
  - eexists. apply lookup_insert_eq.
  - eexists. rewrite lookup_insert_ne by done. apply lookup_insert_eq.
Qed.

Lemma gather_all_cached_witness :
  gathered_isIncomplete
    (gather Sample.to_item
       (Sample.lsp (Thrown "boom") (Sample.incomplete ["count"]))
       (Sample.gather_args "print.c") Sample.warm_cache [])
  = false
  ∧ item_cache
      (gather Sample.to_item
         (Sample.lsp (Thrown "boom") (Sample.incomplete ["count"]))
         (Sample.gather_args "print.c") Sample.warm_cache [])
    = ∅.
Proof.
  apply (gather_all_cached Sample.to_item
           (Sample.lsp (Thrown "boom") (Sample.incomplete ["count"]))
           (Sample.gather_args "print.c") Sample.warm_cache []
           (sample_all_cached _ _)).
Defined.


Lemma gather_item_provenance_witness :
  ∃ client,
    client ∈ [Sample.client 1; Sample.client 2]
    ∧ ((∃ cached, Sample.warm_cache !! Client.id client = Some cached
                  ∧ Sample.cached_item ∈ cached)
       ∨ ∃ result lspItem,
           Sample.warm_cache !! Client.id client = None
           ∧ (if Client.id client =? 1 then Thrown "boom"
              else Sample.incomplete ["count"])
             = Responded (Some result)
           ∧ lspItem ∈ items (completionList result)
           ∧ Sample.to_item
               (completionItem
                  (Sample.lsp (Thrown "boom") (Sample.incomplete ["count"]))
                  (Sample.gather_args "print.c") client)
               lspItem (itemDefaults (completionList result))
             = Some Sample.cached_item).
Proof.
  apply (gather_item_provenance Sample.to_item
           (Sample.lsp (Thrown "boom") (Sample.incomplete ["count"]))
           (Sample.gather_args "print.c") Sample.warm_cache []
           Sample.cached_item).
  apply list_elem_of_In. vm_compute. auto.
Defined.

Lemma onCompleteDone_cursor_before_start_witness :
  onCompleteDone Sample.parse Sample.insert_text Sample.no_replace
    Sample.editor_moved_back (Sample.user_data true) params
  = ([EvalCompletedItemWord; LineContextCreate], inr tt).
Proof.
  apply (onCompleteDone_cursor_before_start Sample.parse Sample.insert_text
           Sample.no_replace Sample.editor_moved_back
           (Sample.user_data true) params).
  - cbn. lia.
  - cbn. lia.
  - discriminate.
Defined.

(** * The cache after the late callbacks *)

Section LateFacts.

Variable toDdcItem :
  CompletionItem.t → LspItem → option ItemDefaults → option Item.
Variable host : GatherHost.
Variable args : GatherArguments.
Variable clients : list Client.t.
Variable cache : gmap Z (list Item).
Variable order : list nat.

Local Abbreviation request := (request host args).
Local Abbreviation ddc_items := (ddc_items toDdcItem host args).
Local Abbreviation settle_late := (settle_late toDdcItem host args clients).
Local Abbreviation settles_late :=
  (settles_late toDdcItem host args clients).
Local Abbreviation cycle :=
  (await_all toDdcItem host args clients cache order).
Local Abbreviation returned :=
  (at_return toDdcItem host args clients cache order).
Local Abbreviation late :=
  (late_callbacks toDdcItem host args clients cache order).
Local Abbreviation late_ok :=
  (late_ok toDdcItem host args clients cache returned).

Lemma settle_late_settles (st : Cycle) (i : nat) :
  settles_late st i (settle_late st i).
Proof.
  unfold settle_late.
  destruct (clients !! i) as [client|] eqn:Hclient; [|constructor].
  destruct (fulfilled st !! i) as [[items|]|] eqn:Hslot; try constructor.
  destruct (request client) as [e | [result|]] eqn:Hreq.
  - constructor.
  - by eapply late_result.
  - by eapply late_nothing.
Qed.

Lemma foldl_settle_late_ind (P : Cycle → Prop) (l : list nat) :
  ∀ st, P st → (∀ st i st', P st → settles_late st i st' → P st') →
        P (foldl settle_late st l).
Proof.
  induction l as [|i l IH]; intros st Hst Hstep; [done |].
  simpl. apply IH; [|done]. eapply Hstep; [done | apply settle_late_settles].
Qed.

(** When every promise was fulfilled at the return, no callback is left. *)
Lemma settle_late_idle (st : Cycle) (l : list nat) :
  (∀ j c, clients !! j = Some c → fulfilled st !! j ≠ Some None) →
  foldl settle_late st l = st.
Proof.
  intros Hdone. induction l as [|i l IH]; [done |]. simpl.
  assert (settle_late st i = st) as ->; [|done].
  unfold settle_late. destruct (clients !! i) as [c|] eqn:Hc; [|done].
  destruct (fulfilled st !! i) as [[items|]|] eqn:Hslot; try done.
  by destruct (Hdone i c Hc).
Qed.

Lemma late_callbacks_none :
  rejected cycle = None → late = returned.
Proof.
  intros Hnone. unfold late_callbacks. apply settle_late_idle.
  intros j c Hc. unfold at_return. cbn.
  destruct (await_all_fulfils toDdcItem host args clients cache order j c
              Hc Hnone) as [items ->]. done.
Qed.

Lemma returned_pending (j : nat) (c : Client.t) :
  clients !! j = Some c → fulfilled returned !! j = Some None →
  cache !! Client.id c = None.
Proof.
  destruct (cycle_ok_await_all toDdcItem host args clients cache order)
    as [[_ Hpending] _].
  intros Hc Hslot. by eapply Hpending.
Qed.

Lemma late_ok_returned : late_ok returned.
Proof.
  destruct (cycle_ok_await_all toDdcItem host args clients cache order)
    as [[Hlen _] _].
  split; try done.
  - intros k items Hk. by left.
  - intros j c result Hc Hreq Hl [Hthere | (Hslot & items & Hitems)];
      [done | congruence].
Qed.

Section DistinctIds.

Hypothesis distinct : NoDup (Client.id <$> clients).

Lemma late_ok_step (st st' : Cycle) (i : nat) :
  late_ok st → settles_late st i st' → late_ok st'.
Proof.
  intros [Hlen Hpending Hentry Hwritten] Hstep.
  destruct Hstep as [| c Hc Hslot Hreq | c r Hc Hslot Hreq]; [by split | |].
  - (* no result *)
    split; cbn.
    + by rewrite length_insert.
    + intros j [(_ & ? & _) | (_ & Hj)]%list_lookup_insert_Some;
        [done | by apply Hpending].
    + exact Hentry.
    + intros j c' result Hc' Hreq' Hl [Hthere | (Hret & items & Hitems)].
      * apply (Hwritten j c' result); auto.
      * apply list_lookup_insert_Some in Hitems
          as [(<- & _) | (_ & Hitems)]; [congruence |].
        apply (Hwritten j c' result); eauto.
  - (* a result *)
    pose proof (returned_pending i c Hc (Hpending i Hslot)) as Hfresh.
    split; cbn.
    + by rewrite length_insert.
    + intros j [(_ & ? & _) | (_ & Hj)]%list_lookup_insert_Some;
        [done | by apply Hpending].
    + intros k items Hk.
      destruct (isIncomplete (completionList r)) eqn:Hinc;
        [by apply Hentry |].
      apply lookup_insert_Some in Hk as [(<- & <-) | (_ & Hk)];
        [|by apply Hentry].
      right. exists i, c, (completionList r). split_and!; eauto.
    + intros j c' result Hc' Hreq' Hl Hcase.
      destruct (decide (i = j)) as [<- | Hne].
      * assert (c' = c) as -> by congruence.
        assert (result = r) as -> by congruence.
        rewrite Hl. apply lookup_insert_eq.
      * assert (cycle_cache st !! Client.id c'
                = Some (ddc_items c' (completionList result))) as Hold.
        { apply (Hwritten j c' result); try done.
          destruct Hcase as [? | (Hret & items & Hitems)]; [by left |].
          right. split; [done |]. exists items.
          by rewrite list_lookup_insert_ne in Hitems. }
        destruct (isIncomplete (completionList r)); [done |].
        rewrite lookup_insert_ne; [done |]. intros Hid.
        by destruct (same_id_same_client clients distinct _ _ _ _
                       Hc Hc' Hid).
Qed.

Lemma late_ok_late : late_ok late.
Proof.
  unfold late_callbacks. apply foldl_settle_late_ind.
  - apply late_ok_returned.
  - intros st i st' Hst Hstep. by eapply late_ok_step.
Qed.

End DistinctIds.

(** A fulfilled slot stays as it is, and a promise whose request does not
    throw is fulfilled by its turn. *)
Lemma late_fulfilled_step (st st' : Cycle) (i j : nat)
    (items : list Item) :
  settles_late st i st' →
  fulfilled st !! j = Some (Some items) →
  fulfilled st' !! j = Some (Some items).
Proof.
  intros Hstep Hslot. destruct Hstep; cbn; try done;
    (rewrite list_lookup_insert_ne; [done | congruence]).
Qed.

Lemma late_length_step (st st' : Cycle) (i : nat) :
  settles_late st i st' →
  List.length (fulfilled st') = List.length (fulfilled st).
Proof. intros Hstep. destruct Hstep; cbn; by rewrite ?length_insert. Qed.

Lemma settle_late_fulfils (st : Cycle) (i : nat) (c : Client.t)
    (r : option Result) :
  List.length (fulfilled st) = List.length clients →
  clients !! i = Some c → request c = inr r →
  ∃ items, fulfilled (settle_late st i) !! i = Some (Some items).
Proof.
  intros Hlen Hc Hreq. apply lookup_lt_Some in Hc as Hi.
  destruct (lookup_lt_is_Some_2 (fulfilled st) i) as [slot Hslot]; [lia |].
  unfold settle_late. rewrite Hc, Hslot.
  destruct slot as [items|]; [by exists items |]. rewrite Hreq.
  destruct r as [result|]; cbn; eexists; apply list_lookup_insert_eq; lia.
Qed.

Lemma foldl_settle_late_fulfils (l : list nat) (i : nat) (c : Client.t)
    (r : option Result) :
  clients !! i = Some c → request c = inr r → i ∈ l →
  ∀ st, List.length (fulfilled st) = List.length clients →
        ∃ items, fulfilled (foldl settle_late st l) !! i
                 = Some (Some items).
Proof.
  intros Hc Hreq. induction l as [|j l IH]; intros Hin st Hlen.
  { by apply elem_of_nil in Hin. }
  simpl. apply elem_of_cons in Hin as [<- | Hin].
  - destruct (settle_late_fulfils st i c r Hlen Hc Hreq) as [items Hitems].
    exists items. revert Hitems. generalize (settle_late st i).
    clear -l. induction l as [|k l IH]; intros st' Hitems; [done |].
    simpl. apply IH. eapply late_fulfilled_step;
      [apply settle_late_settles | done].
  - apply IH; [done |].
    by rewrite (late_length_step _ _ _ (settle_late_settles st j)).
Qed.

Lemma late_fulfils (i : nat) (c : Client.t) (r : option Result) :
  clients !! i = Some c → request c = inr r →
  ∃ items, fulfilled late !! i = Some (Some items).
Proof.
  intros Hc Hreq. unfold late_callbacks.
  apply (foldl_settle_late_fulfils _ i c r Hc Hreq).
  - unfold schedule. apply elem_of_app. right. apply elem_of_seq.
    apply lookup_lt_Some in Hc. lia.
  - destruct (cycle_ok_await_all toDdcItem host args clients cache order)
      as [[Hlen _] _]. exact Hlen.
Qed.

End LateFacts.

(** * The cache and the requests of a cycle *)

Section CycleClaims.

Variable toDdcItem :
  CompletionItem.t → LspItem → option ItemDefaults → option Item.
Variable host : GatherHost.
Variable args : GatherArguments.
Variable cache : gmap Z (list Item).
Variable order : list nat.

Local Abbreviation clients := (get_clients host).
Local Abbreviation request := (request host args).
Local Abbreviation ddc_items := (ddc_items toDdcItem host args).
Local Abbreviation cycle :=
  (await_all toDdcItem host args (get_clients host) cache order).
Local Abbreviation returned :=
  (at_return toDdcItem host args (get_clients host) cache order).
Local Abbreviation gathered := (gather toDdcItem host args cache order).
Local Abbreviation settled :=
  (settled_cache toDdcItem host args cache order).
Local Abbreviation responded :=
  (responded host args (get_clients host) cache).
Local Abbreviation answers := (answers host args (get_clients host) cache).

Lemma printed_none : printed gathered = [] ↔ rejected cycle = None.
Proof.
  unfold gather, gather_clients. cbn.
  destruct (rejected cycle); split; congruence.
Qed.

Lemma returned_cache : cycle_cache returned = item_cache gathered.
Proof. reflexivity. Qed.

Lemma settled_without_failure :
  rejected cycle = None → settled = item_cache gathered.
Proof.
  intros Hnone. unfold settled_cache.
  by rewrite (late_callbacks_none toDdcItem host args clients cache order
                Hnone).
Qed.

(** An answer was processed before the return, or is still pending then. *)
Lemma answers_cases (i : nat) (c : Client.t) (l : CompletionList) :
  answers i c l →
  responded cycle i c l ∨ fulfilled cycle !! i = Some None.
Proof.
  intros (Hc & Hfresh & Hreq).
  destruct (cycle_ok_await_all toDdcItem host args clients cache order)
    as [[Hlen _] _].
  destruct (lookup_lt_is_Some_2 (fulfilled cycle) i) as [[items|] Hslot].
  - rewrite Hlen. by eapply lookup_lt_Some.
  - left. split_and!; eauto.
  - by right.
Qed.

Lemma answers_fulfilled (i : nat) (c : Client.t) (l : CompletionList) :
  rejected cycle = None → answers i c l ↔ responded cycle i c l.
Proof.
  intros Hnone. split.
  - intros (Hc & Hfresh & Hreq). split_and!; try done.
    by apply (await_all_fulfils toDdcItem host args clients cache order
                i c Hc).
  - intros (Hc & Hfresh & _ & Hreq). by split_and!.
Qed.

Section DistinctIds.

Hypothesis distinct : NoDup (Client.id <$> clients).

(** An entry under the id of a client that answers is its complete
    answer. *)
Lemma answer_entry (i : nat) (c : Client.t) (l : CompletionList)
    (items : list Item) :
  answers i c l →
  cycle_cache cycle !! Client.id c = Some items →
  isIncomplete l = false.
Proof.
  intros (Hc & Hfresh & r & Hreq & Hl) Hk.
  destruct (cycle_ok_await_all toDdcItem host args clients cache order)
    as [_ [_ _ _ _ Hentry]].
  destruct (Hentry _ _ Hk)
    as [? | (j & c' & l' & (Hc' & _ & _ & r' & Hreq' & Hl') & Hid & Hinc & _)];
    [congruence |].
  destruct (same_id_same_client clients distinct _ _ _ _ Hc' Hc Hid)
    as [_ ->].
  congruence.
Qed.

(** C2. With distinct client ids, take a client without cache entry whose
    request is answered with a completion list.  If the list is complete,
    its callback stores the normalized items under the client's id:
    before [gather] clears or, when a failure rejected the cycle while
    the request was pending, after it; they are there at the clearing
    step when no failure was reported, and once all callbacks have run
    when the cycle returned [isIncomplete = true].  If the list is
    incomplete, the client has no entry: not at the clearing step, not
    when [gather] returns, not after the late callbacks. *)
Theorem gather_caches_complete_responses (i : nat) (client : Client.t)
    (l : CompletionList) :
  answers i client l →
  (isIncomplete l = false →
   (cycle_cache cycle !! Client.id client = Some (ddc_items client l)
    ∨ settled !! Client.id client = Some (ddc_items client l))
   ∧ (printed gathered = [] →
      cycle_cache cycle !! Client.id client = Some (ddc_items client l))
   ∧ (gathered_isIncomplete gathered = true →
      settled !! Client.id client = Some (ddc_items client l)))
  ∧ (isIncomplete l = true →
     cycle_cache cycle !! Client.id client = None
     ∧ item_cache gathered !! Client.id client = None
     ∧ settled !! Client.id client = None).
Proof.
  intros Hanswers.
  pose proof (late_ok_late toDdcItem host args clients cache order distinct)
    as [_ _ Hentry Hwritten].
  assert (cycle_cache cycle !! Client.id client = None
          ∨ isIncomplete l = false) as Hcycle.
  { destruct (cycle_cache cycle !! Client.id client) eqn:Hk; [|by left].
    right. by eapply answer_entry. }
  assert (∀ r, request client = inr (Some r) → completionList r = l)
    as Hsame.
  { destruct Hanswers as (_ & _ & r & Hreq & Hl). congruence. }
  destruct (Hanswers) as (Hc & Hfresh & r & Hreq & Hl).
  split; intros Hinc.
  - assert (responded cycle i client l →
            cycle_cache cycle !! Client.id client
            = Some (ddc_items client l)) as Hprocessed.
    { intros Hresp. by eapply writes_ok_await_all. }
    assert (fulfilled cycle !! i = Some None →
            settled !! Client.id client = Some (ddc_items client l))
      as Hlate.
    { intros Hslot. rewrite <- Hl. apply (Hwritten i client r Hc Hreq);
        [by rewrite Hl |]. right. split; [exact Hslot |].
      by eapply late_fulfils. }
    split_and!.
    + destruct (answers_cases i client l Hanswers); auto.
    + intros Hquiet%printed_none. apply Hprocessed.
      by apply answers_fulfilled.
    + intros Hflag.
      destruct (answers_cases i client l Hanswers) as [Hresp | Hslot];
        [|by apply Hlate].
      rewrite <- Hl. apply (Hwritten i client r Hc Hreq); [by rewrite Hl |].
      left. unfold at_return. cbn.
      unfold gather, gather_clients in Hflag. cbn in Hflag.
      rewrite Hflag, Hl. by apply Hprocessed.
  - assert (cycle_cache cycle !! Client.id client = None) as Hnone.
    { destruct Hcycle; [done | congruence]. }
    assert (item_cache gathered !! Client.id client = None) as Hleft.
    { unfold gather, gather_clients. cbn.
      by destruct (cycle_isIncomplete cycle). }
    split_and!; [exact Hnone | exact Hleft |].
    destruct (settled !! Client.id client) as [items|] eqn:Hk; [|done].
    destruct (Hentry _ _ Hk)
      as [Hret | (j & c' & l' & Hc' & _ & (r' & Hreq' & Hl') & Hid & Hinc'
                  & _)].
    + rewrite returned_cache in Hret. congruence.
    + destruct (same_id_same_client clients distinct _ _ _ _ Hc' Hc Hid)
        as [_ ->].
      congruence.
Qed.

(** X11. With distinct client ids, when a cycle reported no failure, the
    cache the next cycle finds holds [items] under a key exactly when the
    cycle returned [isIncomplete = true] and either the entry was there
    when the cycle started, or the client with that id, without entry
    then, was answered with a complete list normalized to [items]. *)
Theorem gather_cache_entries (k : Z) (items : list Item) :
  printed gathered = [] →
  settled !! k = Some items
  ↔ gathered_isIncomplete gathered = true
    ∧ (cache !! k = Some items
       ∨ ∃ i c l, answers i c l ∧ Client.id c = k
                  ∧ isIncomplete l = false ∧ items = ddc_items c l).
Proof.
  intros Hnone%printed_none. rewrite (settled_without_failure Hnone).
  assert (cycle_cache cycle !! k = Some items
          ↔ cache !! k = Some items
            ∨ ∃ i c l, answers i c l ∧ Client.id c = k
                       ∧ isIncomplete l = false ∧ items = ddc_items c l)
    as <-.
  { rewrite (cycle_cache_entry toDdcItem host args cache order k items
               distinct).
    split; (intros [? | (i & c & l & Hresp & Hrest)]; [by left | right]);
      exists i, c, l; (split; [|done]); by apply answers_fulfilled. }
  unfold gather, gather_clients. cbn.
  destruct (cycle_isIncomplete cycle).
  - split; [by split | by intros [_ ?]].
  - rewrite lookup_empty. split; [done | by intros [? _]].
Qed.

End DistinctIds.


(** C6. For every client without cache entry, [request] hands the host a
    request whose trigger context is: the trigger-character kind with the
    character typed last, when that character is one of the client's
    trigger characters; otherwise the incomplete-completions kind when
    the session continues an incomplete completion; otherwise the invoked
    kind.  The outcome of [request] is the host's reply to exactly these
    parameters, and they are the ones the cycle sends for the client;
    the cycle sends nothing else. *)
Theorem request_trigger_context (i : nat) (client : Client.t) :
  clients !! i = Some client →
  cache !! Client.id client = None →
  ∃ sent,
    request client
    = match lsp_request host (Client.id client) sent
              (sourceOptions_timeout args) with
      | Responded result => inr result
      | DeadlineExceeded => inr None
      | Thrown e => inl e
      end
    ∧ position_params sent = make_position_params host
    ∧ (last_typed (context_input args)
         ∈ default [] (triggerCharacters (Client.provider client)) →
       context sent
       = {| triggerKind := TriggerCharacter;
            triggerCharacter := Some (last_typed (context_input args)) |})
    ∧ (last_typed (context_input args)
         ∉ default [] (triggerCharacters (Client.provider client)) →
       context sent
       = {| triggerKind := if args_isIncomplete args
                           then TriggerForIncompleteCompletions
                           else Invoked;
            triggerCharacter := None |})
    ∧ (Client.id client, sent) ∈ requests gathered
    ∧ ∀ id sent',
        (id, sent') ∈ requests gathered →
        ∃ client', client' ∈ clients ∧ cache !! Client.id client' = None
                   ∧ id = Client.id client'
                   ∧ sent' = request_params host args client'.
Proof.
  intros Hclient Hfresh. exists (request_params host args client).
  split_and!.
  - reflexivity.
  - reflexivity.
  - intros Hreg. cbn. unfold request_context. rewrite slice_last_typed.
    destruct (triggerCharacters (Client.provider client)) as [chars|];
      [|by apply elem_of_nil in Hreg].
    cbn in Hreg. apply includes_elem_of in Hreg. by rewrite Hreg.
  - intros Hreg. cbn. unfold request_context. rewrite slice_last_typed.
    destruct (triggerCharacters (Client.provider client)) as [chars|];
      [|done].
    cbn in Hreg. destruct (Js.includes chars _) eqn:Hinc; [|done].
    by apply includes_elem_of in Hinc.
  - unfold gather, gather_clients. cbn. apply list_elem_of_omap.
    exists client. split; [by eapply list_elem_of_lookup_2 |].
    by rewrite Hfresh.
  - intros id sent'. unfold gather, gather_clients. cbn.
    intros (client' & Hin & Hsent)%list_elem_of_omap.
    destruct (cache !! Client.id client') eqn:Hk; [done |].
    injection Hsent as <- <-. by exists client'.
Qed.

End CycleClaims.

(** ** Sample cycles *)

Lemma sample_answers :
  answers (Sample.lsp (Sample.complete ["console"])
             (Sample.incomplete ["count"]))
    (Sample.gather_args "print.c") [Sample.client 1; Sample.client 2] ∅
    0 (Sample.client 1)
    {| isIncomplete := false; itemDefaults := None;
       items := [Sample.lsp_item "console"] |}.
Proof.
  split_and!; [reflexivity | apply lookup_empty |].
  eexists. split; reflexivity.
Qed.

Lemma gather_caches_complete_responses_witness :
  settled_cache Sample.to_item
    (Sample.lsp (Sample.complete ["console"]) (Sample.incomplete ["count"]))
    (Sample.gather_args "print.c") ∅ [] !! 1
  = Some (ddc_items Sample.to_item
            (Sample.lsp (Sample.complete ["console"])
               (Sample.incomplete ["count"]))
            (Sample.gather_args "print.c") (Sample.client 1)
            {| isIncomplete := false; itemDefaults := None;
               items := [Sample.lsp_item "console"] |}).
Proof.
  destruct (gather_caches_complete_responses Sample.to_item
              (Sample.lsp (Sample.complete ["console"])
                 (Sample.incomplete ["count"]))
              (Sample.gather_args "print.c") ∅ [] sample_ids_distinct
              0%nat (Sample.client 1)
              {| isIncomplete := false; itemDefaults := None;
                 items := [Sample.lsp_item "console"] |}
              sample_answers) as [Hcomplete _].
  destruct (Hcomplete eq_refl) as (_ & _ & Hkept).
  apply Hkept. vm_compute. reflexivity.
Defined.

Lemma gather_cache_entries_witness :
  settled_cache Sample.to_item
    (Sample.lsp (Sample.complete ["console"]) (Sample.incomplete ["count"]))
    (Sample.gather_args "print.c") ∅ [] !! 1
  = Some (ddc_items Sample.to_item
            (Sample.lsp (Sample.complete ["console"])
               (Sample.incomplete ["count"]))
            (Sample.gather_args "print.c") (Sample.client 1)
            {| isIncomplete := false; itemDefaults := None;
               items := [Sample.lsp_item "console"] |}).
Proof.
  apply (gather_cache_entries Sample.to_item
           (Sample.lsp (Sample.complete ["console"])
              (Sample.incomplete ["count"]))
           (Sample.gather_args "print.c") ∅ [] sample_ids_distinct).
  - vm_compute. reflexivity.
  - split; [vm_compute; reflexivity |]. right.
    exists 0%nat, (Sample.client 1),
      {| isIncomplete := false; itemDefaults := None;
         items := [Sample.lsp_item "console"] |}.
    split_and!; [apply sample_answers | reflexivity..].
Defined.



Lemma request_trigger_context_witness :
  request Sample.picky (Sample.gather_args "print.") (Sample.client 1)
  = inr (Some (ResultArray [Sample.lsp_item "dot"])).
Proof.
  destruct (request_trigger_context Sample.to_item Sample.picky
              (Sample.gather_args "print.") ∅ [] 0%nat (Sample.client 1)
              eq_refl (lookup_empty _))
    as (sent & Hrequest & _ & Htriggered & _).
  rewrite Hrequest. cbn. rewrite Htriggered; [reflexivity |].
  cbn. apply list_elem_of_In. cbn. auto.
Defined.

(** C8 as stated fails: the accepted word is the candidate's insert text,
    [isReplace] answers false and the candidate carries no additional
    text edit, its [additionalTextEdits] being the empty array; with
    [enableAdditionalTextEdit] on, [onCompleteDone] still sets the undo
    break, calls [CompletionItem.confirm] and [ddc#skip_next_complete]. *)
Lemma onCompleteDone_empty_edits_mutate :
  ¬ (inserted_text (Sample.editor "console") (Sample.user_data true)
     = completed_item_word (Sample.editor "console") →
     Sample.insert_text Sample.without_edits
     = completed_item_word (Sample.editor "console") →
     no_additional_edits Sample.without_edits
       ∨ enableAdditionalTextEdit Sample.editing = false →
     Sample.no_replace Sample.without_edits
       (confirmBehavior Sample.editing)
       (suggestCharacter (Sample.user_data true))
       (requestCharacter (Sample.user_data true)) = false →
     read_only
       (calls (onCompleteDone (λ _, Some Sample.without_edits)
                 Sample.insert_text Sample.no_replace
                 (Sample.editor "console") (Sample.user_data true)
                 Sample.editing))).
Proof.
  intros Hclaim.
  specialize (Hclaim eq_refl eq_refl (or_introl (or_intror eq_refl))
                eq_refl).
  unfold read_only in Hclaim. rewrite Forall_forall in Hclaim.
  assert (mutates CmdSetUndoPoint = false) as Hundo; [|discriminate Hundo].
  apply Hclaim. apply list_elem_of_In. vm_compute. auto.
Qed.
